(** * CensusProfileTree: the variable classifier, the family aggregator,
      the label tree, the lookup indexes, the pretty-printer and the XML
      dump of [data_server/data_loader.py], embedded as pure functions.

    Python values are modelled as follows.
    - A [str] is a [string]: a sequence of code points below 256.  In that
      range [\d] of the [re] module is exactly ['0'..'9'], and the white
      space of [str.strip] and the case mapping of [str.lower] are the
      tables below.
    - A [dict] is an association list with distinct keys in insertion
      order: assigning to a present key replaces the value in place,
      assigning to a new key appends.
    - [None], strings and dicts that end up in the label tree are the
      constructors of [value].
    - An [int] is a [Z].
    - A raised exception is the [Raise] outcome; the lines that [pprint]
      prints are a list of strings. *)

From Stdlib Require Import List String Ascii Bool Arith Lia Permutation.
From Stdlib Require Import ZArith DecimalString.
Import ListNotations.
Open Scope string_scope.
Open Scope list_scope.
Open Scope nat_scope.

Set Implicit Arguments.
Set Warnings "-register-all".

(** ** Outcomes: a returned value or a raised exception *)

Inductive exn := AttributeError | TypeError.

Inductive outcome (A : Type) : Type :=
| Ok (a : A)
| Raise (e : exn).
Arguments Ok {A} a.
Arguments Raise {A} e.

Definition bind {A B} (x : outcome A) (f : A -> outcome B) : outcome B :=
  match x with
  | Ok a => f a
  | Raise e => Raise e
  end.

Notation "x <- c1 ;; c2" := (bind c1 (fun x => c2))
  (at level 61, c1 at next level, right associativity).

(** ** Python string methods *)

Module PyStr.

Definition code (c : ascii) : nat := nat_of_ascii c.

Definition between (lo hi : nat) (c : ascii) : bool :=
  (lo <=? code c) && (code c <=? hi).

(** [\d] on code points below 256. *)
Definition is_digit (c : ascii) : bool := between 48 57 c.

(** White space of [str.strip()]: TAB..CR, FS..US, space, NEL, NBSP. *)
Definition is_space (c : ascii) : bool :=
  between 9 13 c || between 28 32 c || (code c =? 133) || (code c =? 160).

(** [str.lower()] on one code point. *)
Definition lower_char (c : ascii) : ascii :=
  if between 65 90 c then ascii_of_nat (code c + 32)
  else if between 192 222 c && negb (code c =? 215)
       then ascii_of_nat (code c + 32)
       else c.

Fixpoint lower (s : string) : string :=
  match s with
  | EmptyString => EmptyString
  | String c s' => String (lower_char c) (lower s')
  end.

Fixpoint lstrip (s : string) : string :=
  match s with
  | EmptyString => EmptyString
  | String c s' => if is_space c then lstrip s' else s
  end.

Fixpoint rev (s : string) : string :=
  match s with
  | EmptyString => EmptyString
  | String c s' => rev s' ++ String c EmptyString
  end.

Definition rstrip (s : string) : string := rev (lstrip (rev s)).

Definition strip (s : string) : string := rstrip (lstrip s).

(** Truth value of a string: non-empty. *)
Definition truthy (s : string) : bool :=
  match s with
  | EmptyString => false
  | String _ _ => true
  end.

(** [s.split(sep)] for a non-empty separator: the occurrences of [sep]
    are found left to right and do not overlap.  [skip] counts the
    characters of a separator still to be dropped, [cur] is the piece
    being read. *)
Fixpoint split_go (sep : string) (skip : nat) (cur : string) (s : string)
  : list string :=
  match s with
  | EmptyString => [cur]
  | String c s' =>
      match skip with
      | S n => split_go sep n cur s'
      | O =>
          if prefix sep s
          then cur :: split_go sep (String.length sep - 1) EmptyString s'
          else split_go sep 0 (cur ++ String c EmptyString) s'
      end
  end.

Definition split (sep s : string) : list string :=
  split_go sep 0 EmptyString s.

End PyStr.

(** ** Dicts as association lists *)

Module Dict.
Section Ops.
Variable V : Type.

Definition t := list (string * V).

(** [d.get(k)] *)
Fixpoint get (k : string) (d : t) : option V :=
  match d with
  | [] => None
  | (k', v) :: d' => if String.eqb k k' then Some v else get k d'
  end.

(** [d[k] = v] *)
Fixpoint set (k : string) (v : V) (d : t) : t :=
  match d with
  | [] => [(k, v)]
  | (k', v') :: d' =>
      if String.eqb k k' then (k', v) :: d' else (k', v') :: set k v d'
  end.

Definition keys (d : t) : list string := map fst d.

(** [sorted(d.items())]: the keys of a dict are distinct, so the order of
    the pairs is the order of their keys (by code point). *)
Fixpoint insert_sorted (kv : string * V) (l : t) : t :=
  match l with
  | [] => [kv]
  | kv' :: l' =>
      if String.leb (fst kv) (fst kv') then kv :: kv' :: l'
      else kv' :: insert_sorted kv l'
  end.

Definition sorted (d : t) : t := fold_right insert_sorted [] d.

End Ops.
Arguments get {V} k d.
Arguments set {V} k v d.
Arguments keys {V} d.
Arguments insert_sorted {V} kv l.
Arguments sorted {V} d.
End Dict.

(** Run a list of computations in order; the first exception wins. *)
Fixpoint sequence {A} (l : list (outcome A)) : outcome (list A) :=
  match l with
  | [] => Ok []
  | x :: l' => a <- x ;; r <- sequence l' ;; Ok (a :: r)
  end.

(** ** The [re] module: patterns and the backtracking matcher *)

Module Re.

Inductive regex :=
| Eps                             (* the empty pattern *)
| Chr (c : ascii)                 (* a literal character *)
| Digit                           (* \d *)
| Seq (r1 r2 : regex)             (* r1 r2 *)
| Alt (r1 r2 : regex)             (* r1|r2, left alternative first *)
| Opt (r : regex)                 (* r?, greedy *)
| Group (name : string) (r : regex) (* (?P<name>r) *)
| Bol                             (* ^ *)
| Eol.                            (* $ *)

(** [r{n}] *)
Fixpoint Rep (n : nat) (r : regex) : regex :=
  match n with
  | 0 => Eps
  | 1 => r
  | S n' => Seq r (Rep n' r)
  end.

(** A literal word. *)
Fixpoint Lit (s : string) : regex :=
  match s with
  | EmptyString => Eps
  | String c EmptyString => Chr c
  | String c s' => Seq (Chr c) (Lit s')
  end.

Record mstate := MState {
  pos : nat;                       (* characters consumed so far *)
  rest : string;                   (* the input still to be read *)
  caps : list (string * string)    (* named groups closed so far *)
}.

(** The matcher tries the alternatives in the order Python does and keeps
    the first one for which the rest of the pattern, the continuation
    [k], succeeds. *)
Fixpoint run (r : regex) (st : mstate)
         (k : mstate -> option (list (string * string)))
  : option (list (string * string)) :=
  match r with
  | Eps => k st
  | Chr c =>
      match rest st with
      | String c' s' =>
          if Ascii.eqb c c' then k (MState (S (pos st)) s' (caps st))
          else None
      | EmptyString => None
      end
  | Digit =>
      match rest st with
      | String c' s' =>
          if PyStr.is_digit c' then k (MState (S (pos st)) s' (caps st))
          else None
      | EmptyString => None
      end
  | Seq r1 r2 => run r1 st (fun st' => run r2 st' k)
  | Alt r1 r2 =>
      match run r1 st k with
      | Some res => Some res
      | None => run r2 st k
      end
  | Opt r1 =>
      match run r1 st k with
      | Some res => Some res
      | None => k st
      end
  | Group name r1 =>
      run r1 st (fun st' =>
        k (MState (pos st') (rest st')
             ((name, substring 0 (pos st' - pos st) (rest st)) :: caps st')))
  | Bol => if pos st =? 0 then k st else None
  | Eol =>
      (* end of the string, or just before a newline that ends it *)
      match rest st with
      | EmptyString => k st
      | String c EmptyString => if Ascii.eqb c "010" then k st else None
      | _ => None
      end
  end.

(** [pattern.match(s)]: the match starts at position 0 and need not reach
    the end of [s]; the result is the dictionary of named groups. *)
Definition rmatch (r : regex) (s : string) : option (list (string * string)) :=
  run r (MState 0 s []) (fun st => Some (caps st)).

(** [m.group(name)] / [m.groupdict()[name]] *)
Fixpoint mgroup (name : string) (m : list (string * string)) : option string :=
  match m with
  | [] => None
  | (n, v) :: m' => if String.eqb name n then Some v else mgroup name m'
  end.

End Re.

(** ** Values stored in the label tree *)

Inductive value :=
| VNone
| VStr (s : string)
| VDict (d : list (string * value)).

Definition opt_value (o : option string) : value :=
  match o with
  | None => VNone
  | Some s => VStr s
  end.

(** [bool(v)] *)
Definition truthy (v : value) : bool :=
  match v with
  | VNone => false
  | VStr s => PyStr.truthy s
  | VDict [] => false
  | VDict (_ :: _) => true
  end.

(** [x or y] on optional strings: [x] when it is a non-empty string. *)
Definition or_else (x : option string) (y : string) : string :=
  match x with
  | Some s => if PyStr.truthy s then s else y
  | None => y
  end.

(** ** The catalog: [variables.items()] in iteration order *)

Record info := Info {
  i_label : option string;          (* info.get("label") *)
  i_concept : option string;        (* info.get("concept") *)
  i_group : option string;          (* info.get("group") *)
  i_predicateType : option string;  (* info.get("predicateType") *)
  i_attributes : option string      (* info.get("attributes") *)
}.

Definition catalog := list (string * info).

(** ** Families *)

Record meta := Meta {
  base : string;
  group : option string;
  concept : option string;
  label : option string
}.

Record member := Member {
  var : string;
  m_label : option string;
  m_predicateType : option string;
  m_attributes : option string
}.

Record Family := mkFamily {
  fmeta : option meta;                 (* fam["meta"], None until first set *)
  members : list (string * member)     (* fam["members"] *)
}.

Definition meta_value (m : meta) : value :=
  VDict [("base", VStr (base m)); ("group", opt_value (group m));
         ("concept", opt_value (concept m)); ("label", opt_value (label m))].

Definition member_value (m : member) : value :=
  VDict [("var", VStr (var m)); ("label", opt_value (m_label m));
         ("predicateType", opt_value (m_predicateType m));
         ("attributes", opt_value (m_attributes m))].

(** The dict that a family is in the source. *)
Definition family_value (f : Family) : value :=
  VDict [("meta", match fmeta f with
                  | None => VNone
                  | Some m => meta_value m
                  end);
         ("members", VDict (map (fun km => (fst km, member_value (snd km)))
                               (members f)))].

(** ** class CensusProfileTree *)

Module CensusProfileTree.

Import Re.

Definition _SUFFIX_MAP : list (string * string) :=
  [("E", "estimate");
   ("M", "moe");
   ("PE", "percent_estimate");
   ("PM", "percent_moe");
   ("EA", "estimate_annotation");
   ("MA", "moe_annotation");
   ("PEA", "percent_estimate_annotation");
   ("PMA", "percent_moe_annotation")].

Local Notation "a ** b" := (Seq a b) (at level 40, left associativity).
Local Notation "a |+| b" := (Alt a b) (at level 50, left associativity).

(** [^(?P<group>DP\d{2}PR?|DP\d{2})_(?P<line>\d{4})(?P<suffix>PEA|PMA|PE|PM|EA|MA|E|M)$] *)
Definition _VAR_RE : regex :=
  Bol
  ** Group "group" (Lit "DP" ** Rep 2 Digit ** Chr "P" ** Opt (Chr "R")
                    |+| Lit "DP" ** Rep 2 Digit)
  ** Chr "_"
  ** Group "line" (Rep 4 Digit)
  ** Group "suffix" (Lit "PEA" |+| Lit "PMA" |+| Lit "PE" |+| Lit "PM"
                     |+| Lit "EA" |+| Lit "MA" |+| Lit "E" |+| Lit "M")
  ** Eol.

(** The three named groups of a match ([m.groupdict()]). *)
Record parts := Parts {
  p_group : string;
  p_line : string;
  p_suffix : string
}.

(** [_VAR_RE.match(code)] followed by [groupdict()].  Every group of the
    pattern takes part in every match ([VAR_RE_groups] below), so the
    last branch is never taken. *)
Definition VAR_RE_match (code : string) : option parts :=
  match rmatch _VAR_RE code with
  | None => None
  | Some m =>
      match mgroup "group" m, mgroup "line" m, mgroup "suffix" m with
      | Some g, Some l, Some s => Some (Parts g l s)
      | _, _, _ => None
      end
  end.

(** [f"{parts['group']}_{parts['line']}"] *)
Definition base_of (p : parts) : string :=
  p_group p ++ "_" ++ p_line p.

(** [_SUFFIX_MAP.get(suffix, suffix)] *)
Definition measure_of (p : parts) : string :=
  match Dict.get (p_suffix p) _SUFFIX_MAP with
  | Some m => m
  | None => p_suffix p
  end.

(** *** 1) Families keyed by base *)

(** One iteration of the first loop of [__init__]. *)
Definition add_variable (families : list (string * Family))
           (v : string) (inf : info) : list (string * Family) :=
  match VAR_RE_match v with
  | None => families
  | Some p =>
      let b := base_of p in
      let measure := measure_of p in
      (* families[base] of the defaultdict *)
      let fam := match Dict.get b families with
                 | Some f => f
                 | None => mkFamily None []
                 end in
      let m := match fmeta fam with
               | None => Meta b (i_group inf) (i_concept inf) (i_label inf)
               | Some m0 => m0
               end in
      let mem := Member v (i_label inf) (i_predicateType inf)
                        (i_attributes inf) in
      Dict.set b (mkFamily (Some m) (Dict.set measure mem (members fam)))
               families
  end.

Definition build_families (variables : catalog) : list (string * Family) :=
  fold_left (fun fams vi => add_variable fams (fst vi) (snd vi))
            variables [].

(** *** 2) The label-driven tree *)

Definition FAMILIES : string := "_families_".

(** The path of one family: the body of the second loop up to the
    fallback. *)
Definition label_path (b : string) (fam : Family) : outcome (list string) :=
  match fmeta fam with
  | None => Raise TypeError
  | Some m =>
      let lab := or_else (label m) "" in
      let path := map PyStr.strip
                    (filter (fun p => PyStr.truthy (PyStr.strip p))
                            (PyStr.split "!!" lab)) in
      let path := match path with
                  | t :: rest =>
                      if String.eqb (PyStr.lower t) "estimate"
                         || String.eqb (PyStr.lower t) "percent"
                      then rest else path
                  | [] => path
                  end in
      match path with
      | [] => Ok [or_else (concept m) (or_else (group m) b)]
      | _ :: _ => Ok path
      end
  end.

(** [node = node.setdefault(token, {})] along [path], then
    [node.setdefault("_families_", {})[base] = fam].  The in-place update
    of the nested dicts is returned as the updated node. *)
Fixpoint insert_at (node : value) (path : list string)
         (b : string) (fam : value) : outcome value :=
  match node with
  | VDict d =>
      match path with
      | [] =>
          match Dict.get FAMILIES d with
          | None => Ok (VDict (Dict.set FAMILIES (VDict [(b, fam)]) d))
          | Some (VDict bag) =>
              Ok (VDict (Dict.set FAMILIES (VDict (Dict.set b fam bag)) d))
          | Some _ => Raise TypeError
          end
      | token :: path' =>
          let child := match Dict.get token d with
                       | None => VDict []
                       | Some c => c
                       end in
          child' <- insert_at child path' b fam ;;
          Ok (VDict (Dict.set token child' d))
      end
  | _ => Raise AttributeError
  end.

Definition add_family (root : value) (b : string) (fam : Family)
  : outcome value :=
  path <- label_path b fam ;;
  insert_at root path b (family_value fam).

Fixpoint build_tree (root : value) (families : list (string * Family))
  : outcome value :=
  match families with
  | [] => Ok root
  | (b, fam) :: rest =>
      root' <- add_family root b fam ;;
      build_tree root' rest
  end.

(** *** 3) Convenience lookups *)

Definition opt_eqb (a b : option string) : bool :=
  match a, b with
  | None, None => true
  | Some x, Some y => String.eqb x y
  | _, _ => false
  end.

Fixpoint group_get (g : option string) (d : list (option string * list Family))
  : option (list Family) :=
  match d with
  | [] => None
  | (g', l) :: d' => if opt_eqb g g' then Some l else group_get g d'
  end.

(** [by_group[g].append(fam)] on the defaultdict of lists. *)
Fixpoint group_append (g : option string) (fam : Family)
         (d : list (option string * list Family))
  : list (option string * list Family) :=
  match d with
  | [] => [(g, [fam])]
  | (g', l) :: d' =>
      if opt_eqb g g' then (g', l ++ [fam]) :: d'
      else (g', l) :: group_append g fam d'
  end.

Fixpoint build_by_group (families : list (string * Family))
         (acc : list (option string * list Family))
  : outcome (list (option string * list Family)) :=
  match families with
  | [] => Ok acc
  | (_, fam) :: rest =>
      match fmeta fam with
      | None => Raise TypeError
      | Some m => build_by_group rest (group_append (group m) fam acc)
      end
  end.

(** The attribute codes of one variable: [a.strip()] for the pieces of
    [attrs.split(",")], the empty ones dropped. *)
Definition attribute_codes (attrs : option string) : list string :=
  match attrs with
  | None => []
  | Some s =>
      if PyStr.truthy s
      then filter PyStr.truthy (map PyStr.strip (PyStr.split "," s))
      else []
  end.

Definition add_attributes (families : list (string * Family))
           (acc : list (string * option Family)) (v : string) (inf : info)
  : list (string * option Family) :=
  fold_left
    (fun acc a =>
       match VAR_RE_match v with
       | Some p => Dict.set a (Dict.get (base_of p) families) acc
       | None => acc
       end)
    (attribute_codes (i_attributes inf)) acc.

Definition build_by_attribute (families : list (string * Family))
           (variables : catalog) : list (string * option Family) :=
  fold_left (fun acc vi => add_attributes families acc (fst vi) (snd vi))
            variables [].

(** The constructed object.  A family record is shared between
    [_families], the bag that holds it and the two indexes; it is written
    by the first loop only, except that the second loop adds keys to a
    record it walks into, which takes a label token equal to the reserved
    key.  [_tree] holds the records as they are when [__init__] returns;
    the other fields hold them as the first loop leaves them. *)
Record t := Object {
  _raw : catalog;
  _families : list (string * Family);
  _tree : value;
  _by_group : list (option string * list Family);
  _by_attribute : list (string * option Family)
}.

(** [__init__] after the catalog has been fetched. *)
Definition __init__ (variables : catalog) : outcome t :=
  let families := build_families variables in
  tree <- build_tree (VDict []) families ;;
  by_group <- build_by_group families [] ;;
  Ok (Object variables families tree by_group
             (build_by_attribute families variables)).

(** *** Public API *)

Inductive path_arg :=
| PathStr (s : string)
| PathList (l : list string).

Definition tokens (path : path_arg) : list string :=
  match path with
  | PathStr s => filter PyStr.truthy (PyStr.split "/" s)
  | PathList l => l
  end.

(** The loop of [subtree]: [node.get(token)], [None] ends the walk. *)
Fixpoint walk (node : value) (path : list string) : outcome value :=
  match path with
  | [] => Ok node
  | token :: path' =>
      match node with
      | VDict d =>
          match Dict.get token d with
          | None | Some VNone => Ok VNone
          | Some child => walk child path'
          end
      | _ => Raise AttributeError
      end
  end.

Definition subtree (self : t) (path : path_arg) : outcome value :=
  walk (_tree self) (tokens path).

Definition families_at (self : t) (path : path_arg) : outcome value :=
  node <- subtree self path ;;
  if negb (truthy node) then Ok (VDict [])
  else match node with
       | VDict d =>
           match Dict.get FAMILIES d with
           | Some v => Ok v
           | None => Ok (VDict [])
           end
       | _ => Raise AttributeError
       end.

Definition family (self : t) (code : string) : option Family :=
  match VAR_RE_match code with
  | None => None
  | Some p => Dict.get (base_of p) (_families self)
  end.

Definition by_group (self : t) (g : option string) : list Family :=
  match group_get g (_by_group self) with
  | Some l => l
  | None => []
  end.

Definition by_attribute (self : t) (attribute : string) : option Family :=
  match Dict.get attribute (_by_attribute self) with
  | Some f => f
  | None => None
  end.

(** *** XML dump *)

(** An [xml.etree.ElementTree.Element]: tag, attributes, text, children. *)
Inductive element :=
| Element (tag : string) (attrib : list (string * value))
          (text : option value) (children : list element).

Definition get_default (k : string) (default : value)
           (d : list (string * value)) : value :=
  match Dict.get k d with
  | Some v => v
  | None => default
  end.

Section Xml.

(** [str(d)] of a dict [d] is left open. *)
Variable repr_dict : list (string * value) -> string.

(** [str(v)] *)
Definition py_str (v : value) : string :=
  match v with
  | VNone => "None"
  | VStr s => s
  | VDict d => repr_dict d
  end.

Variables include_labels include_attributes : bool.

(** One [<Member>] element. *)
Definition member_xml (measure : string) (minfo : value) : outcome element :=
  match minfo with
  | VDict md =>
      let mem_attr :=
        [("measure", VStr measure);
         ("var", VStr (py_str (get_default "var" (VStr "") md)));
         ("predicateType",
          VStr (py_str (get_default "predicateType" (VStr "") md)))] in
      let lbl :=
        if include_labels && truthy (get_default "label" VNone md)
        then [Element "Label" [] (Some (get_default "label" VNone md)) []]
        else [] in
      attrs <-
        (if include_attributes && truthy (get_default "attributes" VNone md)
         then match get_default "attributes" VNone md with
              | VStr a =>
                  Ok [Element "Attributes" [] None
                        (map (fun x => Element "Attr" [] (Some (VStr x)) [])
                             (map PyStr.strip
                                  (filter (fun x => PyStr.truthy (PyStr.strip x))
                                          (PyStr.split "," a))))]
              | _ => Raise AttributeError
              end
         else Ok []) ;;
      Ok (Element "Member" mem_attr None (lbl ++ attrs))
  | _ => Raise AttributeError
  end.

(** One [<Family>] element for an entry of a families-bag. *)
Definition family_xml (b : string) (fam : value) : outcome element :=
  match fam with
  | VDict fd =>
      match get_default "meta" (VDict []) fd with
      | VDict md =>
          let attrib :=
            [("base", get_default "base" (VStr b) md);
             ("group", VStr (py_str (get_default "group" (VStr "") md)));
             ("concept", VStr (py_str (get_default "concept" (VStr "") md)))] in
          let lab :=
            if include_labels
            then [Element "FamilyLabel" []
                    (Some (let l := get_default "label" VNone md in
                           if truthy l then l else VStr "")) []]
            else [] in
          match get_default "members" (VDict []) fd with
          | VDict ms =>
              mems <- sequence (map (fun km => member_xml (fst km) (snd km))
                                    (Dict.sorted ms)) ;;
              Ok (Element "Family" attrib None (lab ++ mems))
          | _ => Raise AttributeError
          end
      | _ => Raise AttributeError
      end
  | _ => Raise AttributeError
  end.

(** The [<Family>] elements of [fams = node.get("_families_")]. *)
Definition families_xml (fams : option value) : outcome (list element) :=
  match fams with
  | None => Ok []
  | Some v =>
      if truthy v
      then match v with
           | VDict bag =>
               sequence (map (fun bf => family_xml (fst bf) (snd bf))
                             (Dict.sorted bag))
           | _ => Raise AttributeError
           end
      else Ok []
  end.

(** [_append_node_xml(parent, node, ...)]: the elements appended to
    [parent].  The source sorts the children and then descends into each;
    here each child is descended into and the results are put in the
    sorted order, which is the same list of elements. *)
Fixpoint _append_node_xml (node : value) : outcome (list element) :=
  match node with
  | VDict d =>
      let kids :=
        (fix go (l : list (string * value))
           : list (string * outcome (list element)) :=
           match l with
           | [] => []
           | (k, v) :: l' =>
               if String.eqb k FAMILIES then go l'
               else (k, match v with
                        | VDict _ => _append_node_xml v
                        | _ => Ok []
                        end) :: go l'
           end) d in
      nodes <- sequence
                 (map (fun kr =>
                         els <- snd kr ;;
                         Ok (Element "Node" [("name", VStr (fst kr))] None els))
                      (Dict.sorted kids)) ;;
      fams <- families_xml (Dict.get FAMILIES d) ;;
      Ok (nodes ++ fams)
  | _ => Raise AttributeError
  end.

(** [dump_xml] up to the serialisation of the element tree: the root
    element that [ET.tostring] is given. *)
Definition dump_xml (self : t) (root_name : string) : outcome element :=
  els <- _append_node_xml (_tree self) ;;
  Ok (Element root_name [] None els).

End Xml.

End CensusProfileTree.

(** ** The pretty-printer

    The lines that [pprint] prints and the [TypeError] or [AttributeError]
    that ends it.  The limits of the interpreter (the depth of the
    recursion, the size of a string) are not modelled. *)

Module Printer.
Import CensusProfileTree.

(** [f"{n}"] for an int. *)
Definition dec (n : Z) : string := NilZero.string_of_int (Z.to_int n).

(** [s * n] for a string and an int. *)
Definition times (s : string) (n : Z) : string :=
  String.concat EmptyString (repeat s (Z.to_nat n)).

(** [l[:m]]: a negative [m] counts from the end. *)
Definition slice_to {A} (m : Z) (l : list A) : list A :=
  firstn (Z.to_nat (if (m <? 0)%Z then Z.of_nat (List.length l) + m else m)%Z) l.

(** [len(v)] *)
Definition py_len (v : value) : outcome Z :=
  match v with
  | VNone => Raise TypeError
  | VStr s => Ok (Z.of_nat (String.length s))
  | VDict d => Ok (Z.of_nat (List.length d))
  end.

(** The lines printed by one round of the loop of [pprint] for an entry
    [k: v] whose key is not the reserved one.  The source filters and
    slices the children and then prints each with [pprint({kk: vv}, ...)];
    here each child is printed and the outputs are filtered and sliced,
    which gives the same lines. *)
Fixpoint pprint_entry (max_children depth : Z) (k : string) (v : value)
         {struct v} : list string :=
  (times "  " depth ++ "- " ++ k)%string
  :: match v with
     | VDict d =>
         let kids :=
           (fix go (l : list (string * value)) : list (list string) :=
              match l with
              | [] => []
              | (kk, vv) :: l' =>
                  if String.eqb kk FAMILIES then go l'
                  else pprint_entry max_children (depth + 1) kk vv :: go l'
              end) d in
         List.concat (slice_to max_children kids)
         ++ (if (max_children <? Z.of_nat (List.length kids))%Z
             then [(times "  " (depth + 1) ++ "... (+"
                    ++ dec (Z.of_nat (List.length kids) - max_children)
                    ++ " more)")%string]
             else [])
     | _ => []
     end.

(** The loop of [pprint] over the items of [node]: the lines printed, and
    the exception that ended the loop, if one did. *)
Fixpoint pprint_items (max_children depth : Z) (items : list (string * value))
  : list string * option exn :=
  match items with
  | [] => ([], None)
  | (k, v) :: rest =>
      if String.eqb k FAMILIES
      then match py_len v with
           | Ok n =>
               let r := pprint_items max_children depth rest in
               ((times "  " depth ++ "[" ++ dec n ++ " families]")%string
                  :: fst r, snd r)
           | Raise e => ([], Some e)
           end
      else let r := pprint_items max_children depth rest in
           (pprint_entry max_children depth k v ++ fst r, snd r)
  end.

(** [pprint(node, depth, max_children)]; [node] is [None] by default. *)
Definition pprint (self : t) (node : value) (depth max_children : Z)
  : list string * option exn :=
  match (match node with VNone => _tree self | _ => node end) with
  | VDict d => pprint_items max_children depth d
  | _ => ([], Some AttributeError)
  end.

End Printer.

(** * Specifications *)

(** ** The relational reading of a pattern *)

Module ReSem.
Import Re.

(** [matches r st st']: [r] reads the input from [st] to [st']. *)
Inductive matches : regex -> mstate -> mstate -> Prop :=
| M_eps st : matches Eps st st
| M_chr c p s cs :
    matches (Chr c) (MState p (String c s) cs) (MState (S p) s cs)
| M_digit c p s cs :
    PyStr.is_digit c = true ->
    matches Digit (MState p (String c s) cs) (MState (S p) s cs)
| M_seq r1 r2 st1 st2 st3 :
    matches r1 st1 st2 -> matches r2 st2 st3 -> matches (Seq r1 r2) st1 st3
| M_alt_l r1 r2 st st' : matches r1 st st' -> matches (Alt r1 r2) st st'
| M_alt_r r1 r2 st st' : matches r2 st st' -> matches (Alt r1 r2) st st'
| M_opt_some r st st' : matches r st st' -> matches (Opt r) st st'
| M_opt_none r st : matches (Opt r) st st
| M_group name r p s cs p' s' cs' :
    matches r (MState p s cs) (MState p' s' cs') ->
    matches (Group name r) (MState p s cs)
            (MState p' s' ((name, substring 0 (p' - p) s) :: cs'))
| M_bol s cs : matches Bol (MState 0 s cs) (MState 0 s cs)
| M_eol_end p cs : matches Eol (MState p EmptyString cs) (MState p EmptyString cs)
| M_eol_nl p cs :
    matches Eol (MState p (String "010" EmptyString) cs)
            (MState p (String "010" EmptyString) cs).

End ReSem.

(** ** The grammar of variable codes, as the specification words it *)

Module Grammar.

Definition NL : string := String "010" EmptyString.

Fixpoint all_digits (s : string) : bool :=
  match s with
  | EmptyString => true
  | String c s' => PyStr.is_digit c && all_digits s'
  end.

Definition digits (n : nat) (s : string) : Prop :=
  String.length s = n /\ all_digits s = true.

(** The topic-group token: two letters and two digits, or that form with
    the trailing qualifier ([P], or [PR] as the pattern has it). *)
Definition group_form (g : string) : Prop :=
  exists d, digits 2 d /\
            (g = "DP" ++ d \/ g = "DP" ++ d ++ "P" \/ g = "DP" ++ d ++ "PR")%string.

Definition suffixes : list string :=
  ["E"; "M"; "PE"; "PM"; "EA"; "MA"; "PEA"; "PMA"].

(** The whole string is group, underscore, line and suffix: [p] names the
    three parts. *)
Definition parses (s : string) (p : CensusProfileTree.parts) : Prop :=
  group_form (CensusProfileTree.p_group p) /\
  digits 4 (CensusProfileTree.p_line p) /\
  In (CensusProfileTree.p_suffix p) suffixes /\
  (s = CensusProfileTree.p_group p ++ "_" ++ CensusProfileTree.p_line p
       ++ CensusProfileTree.p_suffix p)%string.

Definition var_code (s : string) : Prop := exists p, parses s p.

End Grammar.

(** ** One base of a catalog, as the specification words it *)

Module AggregatorSpec.
Import CensusProfileTree.

Definition has_base (b : string) (vi : string * info) : bool :=
  match VAR_RE_match (fst vi) with
  | Some p => String.eqb (base_of p) b
  | None => false
  end.

Definition has_measure (b measure : string) (vi : string * info) : bool :=
  match VAR_RE_match (fst vi) with
  | Some p => String.eqb (base_of p) b && String.eqb (measure_of p) measure
  | None => false
  end.

Definition first_of (b : string) (c : catalog) : option (string * info) :=
  find (has_base b) c.

Fixpoint last_of (b measure : string) (c : catalog) : option (string * info) :=
  match c with
  | [] => None
  | vi :: c' =>
      match last_of b measure c' with
      | Some r => Some r
      | None => if has_measure b measure vi then Some vi else None
      end
  end.

Definition meta_of (b : string) (vi : string * info) : meta :=
  Meta b (i_group (snd vi)) (i_concept (snd vi)) (i_label (snd vi)).

Definition member_of (vi : string * info) : member :=
  Member (fst vi) (i_label (snd vi)) (i_predicateType (snd vi))
         (i_attributes (snd vi)).

(** The state of one base after the first loop. *)
Definition family_spec (c : catalog) (b : string) (o : option Family) : Prop :=
  match o with
  | None => first_of b c = None
  | Some fam =>
      exists vi,
        first_of b c = Some vi /\
        fmeta fam = Some (meta_of b vi) /\
        NoDup (Dict.keys (members fam)) /\
        forall measure,
          Dict.get measure (members fam)
          = option_map member_of (last_of b measure c)
  end.

End AggregatorSpec.

(** ** The path of a family, as the specification words it *)

Module PathSpec.






End PathSpec.

(** ** Trees whose bags hold families *)

Module TreeSpec.
Import CensusProfileTree.

Definition entries (v : value) : list (string * value) :=
  match v with
  | VDict d => d
  | _ => []
  end.

(** The entry of base [b] in the bag of the node at [path]. *)
Definition bag_lookup (node : value) (path : list string) (b : string)
  : option value :=
  match walk node path with
  | Ok (VDict d) =>
      match Dict.get FAMILIES d with
      | Some (VDict bag) => Dict.get b bag
      | _ => None
      end
  | _ => None
  end.

(** Values below a bag: no dict in them has the reserved key. *)
Inductive inert : value -> Prop :=
| inert_none : inert VNone
| inert_str s : inert (VStr s)
| inert_dict d :
    Dict.get FAMILIES d = None ->
    (forall k v, In (k, v) d -> inert v) ->
    inert (VDict d).

Definition bag_ok (fams : list (string * Family)) (path : list string) (v : value) : Prop :=
  exists bag,
    v = VDict bag /\ NoDup (Dict.keys bag) /\
    forall b x, In (b, x) bag ->
                exists fam, In (b, fam) fams /\ x = family_value fam /\
                            label_path b fam = Ok path.

(** [node_ok path node]: [node] is the node at [path] of a tree whose
    bags hold families at their own path. *)
Inductive node_ok (fams : list (string * Family))
  : list string -> value -> Prop :=
| Node_ok path d :
    NoDup (Dict.keys d) ->
    (forall k v, In (k, v) d -> k <> FAMILIES -> node_ok fams (path ++ [k]) v) ->
    (forall v, In (FAMILIES, v) d -> bag_ok fams path v) ->
    node_ok fams path (VDict d).

(** No family has the reserved key among the tokens of its path. *)
Definition reserved_free (fams : list (string * Family)) : bool :=
  forallb (fun bf =>
             match label_path (fst bf) (snd bf) with
             | Ok path => negb (existsb (String.eqb FAMILIES) path)
             | Raise _ => true
             end) fams.

End TreeSpec.

(** ** Reading the document back *)

Module XmlSpec.
Import CensusProfileTree.

Definition tag_of (e : element) : string :=
  match e with Element tag _ _ _ => tag end.

Definition children_of (e : element) : list element :=
  match e with Element _ _ _ children => children end.

(** The value of an attribute of an element. *)
Definition attr (name : string) (e : element) : option value :=
  match e with Element _ attrib _ _ => Dict.get name attrib end.

(** The [<Family>] elements of a document, in document order. *)
Fixpoint family_elements (e : element) : list element :=
  match e with
  | Element tag _ _ children =>
      (if String.eqb tag "Family" then [e] else [])
      ++ (fix go (l : list element) : list element :=
            match l with
            | [] => []
            | c :: l' => family_elements c ++ go l'
            end) children
  end.

(** Measure name and variable code of the [<Member>] children. *)
Definition member_pairs (e : element) : list (option value * option value) :=
  map (fun c => (attr "measure" c, attr "var" c))
      (filter (fun c => String.eqb (tag_of c) "Member") (children_of e)).

(** The element [e] gives back base, group, concept and the measure names
    with their variable codes of the family [fam]. *)
Definition reconstructs (fam : Family) (e : element) : Prop :=
  exists m,
    fmeta fam = Some m /\
    attr "base" e = Some (VStr (base m)) /\
    (forall g, group m = Some g -> attr "group" e = Some (VStr g)) /\
    (forall c, concept m = Some c -> attr "concept" e = Some (VStr c)) /\
    member_pairs e
    = map (fun km => (Some (VStr (fst km)), Some (VStr (var (snd km)))))
          (Dict.sorted (members fam)).

Section Elements.

Variable repr_dict : list (string * value) -> string.
Variables include_labels include_attributes : bool.

(** The [<Member>] element of a member of a family. *)
Definition member_element (measure : string) (mem : member) : element :=
  Element "Member"
    [("measure", VStr measure); ("var", VStr (var mem));
     ("predicateType", VStr (py_str repr_dict (opt_value (m_predicateType mem))))]
    None
    ((if include_labels && truthy (opt_value (m_label mem))
      then [Element "Label" [] (Some (opt_value (m_label mem))) []]
      else [])
     ++ (if include_attributes && truthy (opt_value (m_attributes mem))
         then [Element "Attributes" [] None
                 (map (fun x => Element "Attr" [] (Some (VStr x)) [])
                      (map PyStr.strip
                           (filter (fun x => PyStr.truthy (PyStr.strip x))
                                   (PyStr.split ","
                                      (match m_attributes mem with
                                       | Some a => a
                                       | None => ""
                                       end)))))]
         else [])).

(** The [<Family>] element of a family with its meta. *)
Definition family_element (fam : Family) (m : meta) : element :=
  Element "Family"
    [("base", VStr (base m));
     ("group", VStr (py_str repr_dict (opt_value (group m))));
     ("concept", VStr (py_str repr_dict (opt_value (concept m))))]
    None
    ((if include_labels
      then [Element "FamilyLabel" []
              (Some (if truthy (opt_value (label m))
                     then opt_value (label m) else VStr "")) []]
      else [])
     ++ map (fun km => member_element (fst km) (snd km))
            (Dict.sorted (members fam))).

(** The children of a node with the elements appended for each. *)
Definition kids_of (d : list (string * value))
  : list (string * outcome (list element)) :=
  map (fun kv => (fst kv, match snd kv with
                          | VDict _ => _append_node_xml repr_dict include_labels include_attributes (snd kv)
                          | _ => Ok []
                          end))
      (filter (fun kv => negb (String.eqb (fst kv) FAMILIES)) d).

Definition node_element (kr : string * outcome (list element))
  : outcome element :=
  els <- snd kr ;; Ok (Element "Node" [("name", VStr (fst kr))] None els).

End Elements.

End XmlSpec.

(** ** Concrete catalogs *)

Module Scenario.
Import CensusProfileTree.

Definition arab_label : string :=
  "Estimate!!ANCESTRY!!Total population!!Arab".

Definition arab_path : list string :=
  ["ANCESTRY"; "Total population"; "Arab"].

Definition arab_E : info :=
  Info (Some arab_label) (Some "SELECTED SOCIAL CHARACTERISTICS")
       (Some "DP02") (Some "int") (Some "DP02_0126EA,DP02_0126M").

Definition arab_M : info :=
  Info (Some "Margin of Error!!ANCESTRY!!Total population!!Arab")
       (Some "SELECTED SOCIAL CHARACTERISTICS")
       (Some "DP02") (Some "int") (Some "DP02_0126MA").

(** The catalog of the concrete scenario: one variable. *)
Definition arab_catalog : catalog := [("DP02_0126E", arab_E)].

(** The margin-of-error variant of the same base comes first. *)
Definition moe_first_catalog : catalog :=
  [("DP02_0126M", arab_M); ("DP02_0126E", arab_E)].

(** A label that is the reserved key. *)
Definition reserved_catalog : catalog :=
  [("DP02_0126E",
    Info (Some "_families_") (Some "SELECTED SOCIAL CHARACTERISTICS")
         (Some "DP02") (Some "int") None)].

(** One variable whose group is [g], absent when [g] is [None]. *)
Definition no_group_catalog (g : option string) : catalog :=
  [("DP02_0126E",
    Info (Some arab_label) (Some "SELECTED SOCIAL CHARACTERISTICS")
         g (Some "int") None)].

(** [str] of a dict is not called in these scenarios. *)
Definition no_repr (d : list (string * value)) : string := EmptyString.

Definition arab_family : Family :=
  mkFamily (Some (Meta "DP02_0126" (Some "DP02")
                     (Some "SELECTED SOCIAL CHARACTERISTICS")
                     (Some arab_label)))
         [("estimate",
           Member "DP02_0126E" (Some arab_label) (Some "int")
                  (Some "DP02_0126EA,DP02_0126M"))].

Definition arab_tree : value :=
  VDict [("ANCESTRY",
          VDict [("Total population",
                  VDict [("Arab",
                          VDict [(FAMILIES,
                                  VDict [("DP02_0126",
                                          family_value arab_family)])])])])].

Definition arab_object : t :=
  Object arab_catalog [("DP02_0126", arab_family)] arab_tree
         [(Some "DP02", [arab_family])]
         [("DP02_0126EA", Some arab_family); ("DP02_0126M", Some arab_family)].

End Scenario.

(** ** The indexes, the string form of a path and trees of dicts *)

Module IndexSpec.
Import CensusProfileTree.

(** The variable passes the classifier. *)
Definition classifiable (vi : string * info) : bool :=
  match VAR_RE_match (fst vi) with
  | Some _ => true
  | None => false
  end.


(** The variable is classifiable and lists the attribute code [a]. *)
Definition lists_attribute (a : string) (vi : string * info) : bool :=
  classifiable vi
  && existsb (String.eqb a) (attribute_codes (i_attributes (snd vi))).

(** The last variable of the catalog that lists [a]. *)
Fixpoint last_listing (a : string) (c : catalog) : option (string * info) :=
  match c with
  | [] => None
  | vi :: c' =>
      match last_listing a c' with
      | Some r => Some r
      | None => if lists_attribute a vi then Some vi else None
      end
  end.


(** [sep.join(l)] *)
Fixpoint join (sep : string) (l : list string) : string :=
  match l with
  | [] => EmptyString
  | [s] => s
  | s :: l' => (s ++ sep ++ join sep l')%string
  end.

(** The separator of the string form of a path. *)
Definition slash : ascii := "/"%char.

(** The character does not occur in the string. *)
Fixpoint free_of (c : ascii) (s : string) : bool :=
  match s with
  | EmptyString => true
  | String c' s' => negb (Ascii.eqb c c') && free_of c s'
  end.

(** A tree in which every value under a label token is a dict and every
    value under the reserved key is a dict with an entry. *)
Inductive dict_tree : value -> Prop :=
| Dict_tree d :
    (forall k v, In (k, v) d -> k <> FAMILIES -> dict_tree v) ->
    (forall v, In (FAMILIES, v) d -> exists bag, v = VDict bag /\ bag <> []) ->
    dict_tree (VDict d).

End IndexSpec.

(** ** The shape of the XML document *)

Module XmlShape.
Import CensusProfileTree XmlSpec.

(** The tags of an element and of the elements below it, in document
    order. *)
Fixpoint all_tags (e : element) : list string :=
  match e with
  | Element tag _ _ children =>
      tag :: (fix go (l : list element) : list string :=
                match l with
                | [] => []
                | c :: l' => all_tags c ++ go l'
                end) children
  end.

(** The tags that a dump with the two flags may have below its root. *)
Definition schema (include_labels include_attributes : bool) : list string :=
  ["Node"; "Family"; "Member"]
  ++ (if include_labels then ["FamilyLabel"; "Label"] else [])
  ++ (if include_attributes then ["Attributes"; "Attr"] else []).

(** Each string is at most the next one, by code point. *)
Fixpoint ascending (l : list string) : bool :=
  match l with
  | a :: (b :: _) as l' => String.leb a b && ascending l'
  | _ => true
  end.

(** The label keys of a node: all keys but the reserved one. *)
Definition label_keys (d : list (string * value)) : list string :=
  filter (fun k => negb (String.eqb k FAMILIES)) (Dict.keys d).

(** The number of entries of the bag of a node. *)
Definition bag_size (d : list (string * value)) : nat :=
  match Dict.get FAMILIES d with
  | Some (VDict bag) => List.length bag
  | _ => 0
  end.

End XmlShape.

(** ** What the pretty-printer shows *)

Module PrinterSpec.
Import CensusProfileTree.

(** The children of a dict that are not under the reserved key. *)
Definition label_entries (d : list (string * value)) : list (string * value) :=
  filter (fun kv => negb (String.eqb (fst kv) FAMILIES)) d.

(** The tree without its bags: every entry under the reserved key is
    removed, at every level. *)
Fixpoint labels_only (v : value) : value :=
  match v with
  | VDict d =>
      VDict ((fix go (l : list (string * value)) : list (string * value) :=
                match l with
                | [] => []
                | (k, x) :: l' =>
                    if String.eqb k FAMILIES then go l'
                    else (k, labels_only x) :: go l'
                end) d)
  | _ => v
  end.

End PrinterSpec.

(** ** A catalog with two families at one path *)

Module Scenario2.
Import CensusProfileTree Scenario.

(** The Puerto Rico variant of the scenario's variable has the same label. *)
Definition same_label_catalog : catalog :=
  [("DP02_0126E", arab_E); ("DP02PR_0126E", arab_E)].

Definition arab_family_pr : Family :=
  mkFamily (Some (Meta "DP02PR_0126" (Some "DP02")
                     (Some "SELECTED SOCIAL CHARACTERISTICS")
                     (Some arab_label)))
         [("estimate",
           Member "DP02PR_0126E" (Some arab_label) (Some "int")
                  (Some "DP02_0126EA,DP02_0126M"))].

Definition same_label_tree : value :=
  VDict [("ANCESTRY",
          VDict [("Total population",
                  VDict [("Arab",
                          VDict [(FAMILIES,
                                  VDict [("DP02_0126",
                                          family_value arab_family);
                                         ("DP02PR_0126",
                                          family_value arab_family_pr)])])])])].

Definition same_label_object : t :=
  Object same_label_catalog
         [("DP02_0126", arab_family); ("DP02PR_0126", arab_family_pr)]
         same_label_tree
         [(Some "DP02", [arab_family; arab_family_pr])]
         [("DP02_0126EA", Some arab_family_pr);
          ("DP02_0126M", Some arab_family_pr)].

(** A node with two label keys out of order and a bag. *)
Definition mixed_node : list (string * value) :=
  [("b", VDict []);
   (FAMILIES, VDict [("DP02_0126", family_value arab_family)]);
   ("a", VDict [])].

Definition mixed_elements : list element :=
  Eval vm_compute in
    match _append_node_xml no_repr true true (VDict mixed_node) with
    | Ok els => els
    | Raise _ => []
    end.

(** The document of the scenario without labels and attributes. *)
Definition arab_doc : element :=
  Eval vm_compute in
    match dump_xml no_repr false false arab_object "ACSProfile" with
    | Ok doc => doc
    | Raise _ => Element EmptyString [] None []
    end.

End Scenario2.

(** * Properties *)

(** ** The matcher against the relational reading of a pattern *)

Module ReFacts.
Import Re ReSem.

Lemma run_sound r : forall st k res,
    run r st k = Some res ->
    exists st', matches r st st' /\ k st' = Some res.
Proof.
  induction r; intros [p s cs] k res H; simpl in H.
  - eauto using matches.
  - destruct s as [|c' s']; [discriminate|].
    destruct (Ascii.eqb_spec c c'); [subst|discriminate].
    eauto using matches.
  - destruct s as [|c' s']; [discriminate|].
    destruct (PyStr.is_digit c') eqn:D; [|discriminate].
    eauto using matches.
  - apply IHr1 in H as (st1 & M1 & H).
    apply IHr2 in H as (st2 & M2 & H).
    eauto using matches.
  - destruct (run r1 _ k) eqn:E.
    + inversion H; subst. apply IHr1 in E as (st1 & M1 & E).
      eauto using matches.
    + apply IHr2 in H as (st2 & M2 & H). eauto using matches.
  - destruct (run r _ k) eqn:E.
    + inversion H; subst. apply IHr in E as (st1 & M1 & E).
      eauto using matches.
    + eauto using matches.
  - apply IHr in H as ([p1 s1 cs1] & M1 & H). simpl in H.
    eauto using matches.
  - destruct p; [|discriminate]. eauto using matches.
  - destruct s as [|c [|c2 s2]]; try discriminate.
    + eauto using matches.
    + destruct (Ascii.eqb_spec c "010"); [subst|discriminate].
      eauto using matches.
Qed.

End ReFacts.

(** ** The classifier against the grammar *)

Module ClassifierFacts.
Import CensusProfileTree Re ReSem ReFacts Grammar.

Ltac inv H := inversion H; subst; clear H.

Ltac inv_matches :=
  repeat match goal with
         | H : matches (Seq _ _) _ _ |- _ => inv H
         | H : matches (Alt _ _) _ _ |- _ => inv H
         | H : matches (Opt _) _ _ |- _ => inv H
         | H : matches (Group _ _) _ _ |- _ => inv H
         | H : matches (Chr _) _ _ |- _ => inv H
         | H : matches Digit _ _ |- _ => inv H
         | H : matches Bol _ _ |- _ => inv H
         | H : matches Eol _ _ |- _ => inv H
         | H : matches Eps _ _ |- _ => inv H
         end.

Ltac solve_group :=
  match goal with
  | |- group_form (String _ (String _ (String ?a (String ?b _)))) =>
      exists (String a (String b EmptyString)); split;
      [ split; [reflexivity | simpl; repeat (rewrite_digit; simpl); reflexivity]
      | simpl; auto ]
  end
with rewrite_digit :=
  match goal with
  | H : PyStr.is_digit ?c = true |- context [PyStr.is_digit ?c] => rewrite H
  end.

Ltac solve_parses :=
  unfold parses; simpl;
  split; [solve_group |
  split; [split; [reflexivity | simpl; repeat (rewrite_digit; simpl); reflexivity] |
  split; [simpl; tauto | reflexivity]]].

Lemma VAR_RE_matches s st' :
matches _VAR_RE (MState 0 s []) st' ->
exists p, caps st' = [("suffix", p_suffix p); ("line", p_line p); ("group", p_group p)]
     /\ (parses s p \/ exists s', s = (s' ++ NL)%string /\ parses s' p).
Proof.
intros M. cbv [_VAR_RE Rep Lit] in M.
inv_matches; simpl.
all: eexists (Parts _ _ _); split; [reflexivity|].
all: try (left; solve_parses).
all: right; eexists; split; [|solve_parses]; reflexivity.
Qed.

Lemma digits_2 d : digits 2 d ->
  exists a b, d = String a (String b EmptyString)
              /\ PyStr.is_digit a = true /\ PyStr.is_digit b = true.
Proof.
  intros [L D]. destruct d as [|a [|b [|? ?]]]; try discriminate.
  simpl in D. apply andb_true_iff in D as [Da D].
  apply andb_true_iff in D as [Db _]. eauto.
Qed.

Lemma digits_4 l : digits 4 l ->
  exists a b c d, l = String a (String b (String c (String d EmptyString)))
              /\ PyStr.is_digit a = true /\ PyStr.is_digit b = true
              /\ PyStr.is_digit c = true /\ PyStr.is_digit d = true.
Proof.
  intros [L D]. destruct l as [|a [|b [|c [|d [|? ?]]]]]; try discriminate.
  simpl in D. repeat (apply andb_true_iff in D as [? D]).
  do 4 eexists. eauto.
Qed.

Lemma VAR_RE_match_complete s p tail :
  parses s p -> tail = EmptyString \/ tail = NL ->
  VAR_RE_match (s ++ tail) = Some p.
Proof.
  destruct p as [g l x]. unfold parses; simpl.
  intros ((d & Hd & Hg) & Hl & Hx & ->) Ht.
  apply digits_2 in Hd as (a & b & -> & Ha & Hb).
  apply digits_4 in Hl as (c1 & c2 & c3 & c4 & -> & H1 & H2 & H3 & H4).
  unfold VAR_RE_match, rmatch.
  destruct Ht as [-> | ->];
    destruct Hg as [-> | [-> | ->]];
    repeat (destruct Hx as [<- | Hx]); try contradiction;
    cbn -[PyStr.is_digit]; rewrite ?Ha, ?Hb, ?H1, ?H2, ?H3, ?H4; reflexivity.
Qed.

(** A code the classifier accepts is a variable code of the grammar, or
    such a code followed by one newline; the parts are those of the code. *)
Lemma VAR_RE_match_sound s p :
  VAR_RE_match s = Some p ->
  parses s p \/ exists s', s = (s' ++ NL)%string /\ parses s' p.
Proof.
  unfold VAR_RE_match, rmatch. intros H.
  destruct (run _ _ _) as [m|] eqn:E; [|discriminate].
  apply run_sound in E as ([p1 s1 cs1] & M & E).
  apply VAR_RE_matches in M as (q & Hc & Hq).
  simpl in *. inversion E; subst m; clear E. rewrite Hc in H.
  simpl in H. inversion H; subst p. destruct q; exact Hq.
Qed.

(** Every group of the pattern takes part in every match. *)
Lemma VAR_RE_groups s m :
  rmatch _VAR_RE s = Some m -> VAR_RE_match s <> None.
Proof.
  unfold VAR_RE_match, rmatch. intros E. rewrite E.
  apply run_sound in E as ([p1 s1 cs1] & M & E).
  apply VAR_RE_matches in M as (q & Hc & Hq).
  simpl in *. inversion E; subst m. rewrite Hc. simpl. discriminate.
Qed.

Lemma append_empty s : (s ++ EmptyString)%string = s.
Proof. induction s; simpl; congruence. Qed.

(** What the classifier accepts: the variable codes of the grammar, and
    those codes followed by one newline. *)
Lemma VAR_RE_match_iff s :
  VAR_RE_match s <> None <->
  var_code s \/ exists s', s = (s' ++ NL)%string /\ var_code s'.
Proof.
  split.
  - destruct (VAR_RE_match s) as [p|] eqn:E; [|congruence]. intros _.
    apply VAR_RE_match_sound in E as [P|(s' & -> & P)].
    + left. now exists p.
    + right. exists s'. split; auto. now exists p.
  - intros [(p & P)|(s' & -> & p & P)].
    + rewrite <- (append_empty s).
      rewrite (VAR_RE_match_complete P (or_introl eq_refl)). discriminate.
    + rewrite (VAR_RE_match_complete P (or_intror eq_refl)). discriminate.
Qed.

End ClassifierFacts.

(** ** Dict lemmas *)

Module DictFacts.
Section Lemmas.
Variable V : Type.
Implicit Types (d : list (string * V)) (k : string) (v : V).

Lemma get_set_eq d k v : Dict.get k (Dict.set k v d) = Some v.
Proof.
  induction d as [|[k' v'] d IH]; simpl.
  - now rewrite String.eqb_refl.
  - destruct (String.eqb k k') eqn:E; simpl; rewrite E; auto.
Qed.

Lemma get_set_ne d k k' v :
  k <> k' -> Dict.get k' (Dict.set k v d) = Dict.get k' d.
Proof.
  intros N. induction d as [|[k0 v0] d IH]; simpl.
  - apply String.eqb_neq in N. rewrite String.eqb_sym in N. now rewrite N.
  - destruct (String.eqb k k0) eqn:E; simpl.
    + apply String.eqb_eq in E. subst k0.
      destruct (String.eqb k' k) eqn:E'; auto.
      apply String.eqb_eq in E'. congruence.
    + destruct (String.eqb k' k0); auto.
Qed.

Lemma get_set d k k' v :
  Dict.get k' (Dict.set k v d)
  = if String.eqb k k' then Some v else Dict.get k' d.
Proof.
  destruct (String.eqb_spec k k') as [->|N].
  - apply get_set_eq.
  - now apply get_set_ne.
Qed.

Lemma get_In d k v : Dict.get k d = Some v -> In (k, v) d.
Proof.
  induction d as [|[k' v'] d IH]; simpl; [discriminate|].
  destruct (String.eqb_spec k k') as [->|N].
  - intros [= ->]. now left.
  - intros H. right. auto.
Qed.

Lemma get_None d k : Dict.get k d = None <-> ~ In k (Dict.keys d).
Proof.
  induction d as [|[k' v'] d IH]; simpl; [tauto|].
  destruct (String.eqb_spec k k') as [->|N].
  - split; [discriminate | intros H; exfalso; apply H; now left].
  - rewrite IH. split; intros H; [intros [E|I]; [congruence | tauto] | tauto].
Qed.

Lemma In_get d k v :
  NoDup (Dict.keys d) -> In (k, v) d -> Dict.get k d = Some v.
Proof.
  induction d as [|[k' v'] d IH]; simpl; [tauto|].
  intros ND [E|I].
  - inversion E; subst. now rewrite String.eqb_refl.
  - inversion ND as [|? ? Hn ND']; subst.
    destruct (String.eqb_spec k k') as [->|N]; auto.
    exfalso. apply Hn. unfold Dict.keys. apply in_map_iff.
    now exists (k', v).
Qed.

Lemma keys_set d k v :
  Dict.keys (Dict.set k v d)
  = match Dict.get k d with
    | Some _ => Dict.keys d
    | None => Dict.keys d ++ [k]
    end.
Proof.
  induction d as [|[k' v'] d IH]; simpl; auto.
  destruct (String.eqb k k') eqn:E; simpl; auto.
  rewrite IH. destruct (Dict.get k d); auto.
Qed.

Lemma NoDup_set d k v :
  NoDup (Dict.keys d) -> NoDup (Dict.keys (Dict.set k v d)).
Proof.
  intros ND. rewrite keys_set. destruct (Dict.get k d) eqn:E; auto.
  apply get_None in E.
  apply NoDup_rev in ND. rewrite <- (rev_involutive (_ ++ _)).
  apply NoDup_rev. rewrite rev_app_distr. simpl.
  constructor; auto. now rewrite <- in_rev.
Qed.

Lemma insert_sorted_perm (kv : string * V) l :
  Permutation (Dict.insert_sorted kv l) (kv :: l).
Proof.
  induction l as [|kv' l IH]; simpl; auto.
  destruct (String.leb (fst kv) (fst kv')); auto.
  rewrite IH. apply perm_swap.
Qed.

Lemma sorted_perm d : Permutation (Dict.sorted d) d.
Proof.
  induction d as [|kv d IH]; simpl; auto.
  rewrite insert_sorted_perm. now constructor.
Qed.

Lemma sorted_In d kv : In kv (Dict.sorted d) <-> In kv d.
Proof.
  split; apply Permutation_in; [|symmetry]; apply sorted_perm.
Qed.

End Lemmas.
End DictFacts.

(** ** The family aggregator *)

Module AggregatorFacts.
Import CensusProfileTree AggregatorSpec DictFacts.

Lemma build_families_snoc c v inf :
  build_families (c ++ [(v, inf)]) = add_variable (build_families c) v inf.
Proof. unfold build_families. now rewrite fold_left_app. Qed.

Lemma first_of_snoc b c vi :
  first_of b (c ++ [vi])
  = match first_of b c with
    | Some r => Some r
    | None => if has_base b vi then Some vi else None
    end.
Proof.
  unfold first_of. induction c as [|x c IH]; simpl.
  - now destruct (has_base b vi).
  - destruct (has_base b x); auto.
Qed.

Lemma last_of_snoc b measure c vi :
  last_of b measure (c ++ [vi])
  = if has_measure b measure vi then Some vi else last_of b measure c.
Proof.
  induction c as [|x c IH]; simpl.
  - reflexivity.
  - rewrite IH. destruct (has_measure b measure vi); auto.
Qed.

Lemma last_of_first_None b measure c :
  first_of b c = None -> last_of b measure c = None.
Proof.
  unfold first_of. induction c as [|x c IH]; simpl; auto.
  destruct (has_base b x) eqn:E; [discriminate|].
  intros H. rewrite (IH H).
  unfold has_measure. unfold has_base in E.
  destruct (VAR_RE_match (fst x)); auto. now rewrite E.
Qed.

Lemma build_families_spec c :
  NoDup (Dict.keys (build_families c)) /\
  forall b, family_spec c b (Dict.get b (build_families c)).
Proof.
  induction c as [|[v inf] c IH] using rev_ind.
  - split; [constructor | intros b; reflexivity].
  - destruct IH as [ND IH]. rewrite build_families_snoc.
    unfold add_variable.
    destruct (VAR_RE_match v) as [p|] eqn:Ev.
    + split; [now apply NoDup_set|].
      intros b. rewrite get_set.
      destruct (String.eqb_spec (base_of p) b) as [<-|N].
      * specialize (IH (base_of p)). unfold family_spec in *.
        rewrite first_of_snoc.
        assert (Hb : has_base (base_of p) (v, inf) = true)
          by (unfold has_base; simpl; rewrite Ev; apply String.eqb_refl).
        assert (Hm : forall measure,
                   has_measure (base_of p) measure (v, inf)
                   = String.eqb (measure_of p) measure)
          by (intros; unfold has_measure; simpl; rewrite Ev;
              now rewrite String.eqb_refl).
        destruct (Dict.get (base_of p) (build_families c)) as [fam|] eqn:G.
        -- destruct IH as (vi & F & M & NDm & L). rewrite F, M.
           exists vi. simpl. repeat split; auto.
           ++ now apply NoDup_set.
           ++ intros measure. rewrite get_set, last_of_snoc, Hm.
              destruct (String.eqb (measure_of p) measure); auto.
        -- rewrite IH, Hb. exists (v, inf). simpl. repeat split; auto.
           ++ constructor; [intros []| constructor].
           ++ intros measure. rewrite last_of_snoc, Hm.
              rewrite (last_of_first_None _ _ _ IH).
              rewrite (String.eqb_sym measure).
              destruct (String.eqb (measure_of p) measure); auto.
      * specialize (IH b). unfold family_spec in *.
        assert (Hb : has_base b (v, inf) = false).
        { unfold has_base; simpl; rewrite Ev.
          now apply String.eqb_neq. }
        assert (Hm : forall measure, has_measure b measure (v, inf) = false).
        { intros. unfold has_measure; simpl; rewrite Ev.
          apply String.eqb_neq in N. now rewrite N. }
        rewrite first_of_snoc.
        destruct (Dict.get b (build_families c)) as [fam|].
        -- destruct IH as (vi & F & M & NDm & L). rewrite F.
           exists vi. repeat split; auto.
           intros measure. now rewrite last_of_snoc, Hm.
        -- now rewrite IH, Hb.
    + split; auto. intros b. specialize (IH b). unfold family_spec in *.
      assert (Hb : has_base b (v, inf) = false)
        by (unfold has_base; simpl; now rewrite Ev).
      assert (Hm : forall measure, has_measure b measure (v, inf) = false)
        by (intros; unfold has_measure; simpl; now rewrite Ev).
      rewrite first_of_snoc.
      destruct (Dict.get b (build_families c)) as [fam|].
      * destruct IH as (vi & F & M & NDm & L). rewrite F.
        exists vi. repeat split; auto.
        intros measure. now rewrite last_of_snoc, Hm.
      * now rewrite IH, Hb.
Qed.

Lemma families_meta c b fam :
  Dict.get b (build_families c) = Some fam ->
  exists m, fmeta fam = Some m /\ base m = b.
Proof.
  intros G. pose proof (proj2 (build_families_spec c) b) as S.
  rewrite G in S. destruct S as (vi & _ & M & _). eauto.
Qed.

End AggregatorFacts.

(** ** The label tree *)

Module TreeFacts.
Import CensusProfileTree DictFacts TreeSpec.

Lemma In_set V (d : list (string * V)) k v k' v' :
  In (k', v') (Dict.set k v d) -> (k' = k /\ v' = v) \/ In (k', v') d.
Proof.
  induction d as [|[k0 v0] d IH]; simpl.
  - intros [E|[]]. inversion E; auto.
  - destruct (String.eqb_spec k k0) as [->|N]; simpl.
    + intros [E|I]; [inversion E; auto | auto].
    + intros [E|I]; [auto | destruct (IH I); auto].
Qed.

Lemma In_set_same V (d : list (string * V)) k v v' :
  NoDup (Dict.keys d) -> In (k, v') (Dict.set k v d) -> v' = v.
Proof.
  intros ND I. apply (@NoDup_set _ _ k v) in ND.
  apply In_get in I; auto. rewrite get_set_eq in I. congruence.
Qed.

Lemma bag_lookup_cons d t q b :
  bag_lookup (VDict d) (t :: q) b
  = match Dict.get t d with
    | Some c => bag_lookup c q b
    | None => None
    end.
Proof.
  unfold bag_lookup. simpl.
  destruct (Dict.get t d) as [[| |]|]; auto.
  destruct q; reflexivity.
Qed.

Lemma bag_lookup_empty q b : bag_lookup (VDict []) q b = None.
Proof. destruct q; reflexivity. Qed.

Lemma insert_at_dict node p b v node' :
  insert_at node p b v = Ok node' -> exists d, node' = VDict d.
Proof.
  destruct node as [| |d]; try (destruct p; discriminate).
  destruct p as [|t p]; simpl.
  - destruct (Dict.get FAMILIES d) as [[| |bag]|]; try discriminate;
      intros [= <-]; eauto.
  - destruct (insert_at _ p b v); simpl; [|discriminate].
    intros [= <-]; eauto.
Qed.

(** Inserting a family leaves the entries of the other bases alone. *)
Lemma insert_at_other p : forall node q b v b' node',
    insert_at node p b v = Ok node' ->
    b' <> b -> ~ In FAMILIES p -> ~ In FAMILIES q ->
    bag_lookup node' q b' = bag_lookup node q b'.
Proof.
  induction p as [|t p IH]; intros node q b v b' node' H Nb Np Nq;
    (destruct node as [| |d]; [discriminate H..|]); simpl in H.
  - assert (Hq : forall x, bag_lookup (VDict (Dict.set FAMILIES x d)) q b'
                           = match q with
                             | [] => bag_lookup (VDict (Dict.set FAMILIES x d)) [] b'
                             | _ => bag_lookup (VDict d) q b'
                             end).
    { intros x. destruct q as [|t q]; auto. rewrite !bag_lookup_cons.
      rewrite get_set_ne; auto. intros E. apply Nq. left; auto. }
    destruct (Dict.get FAMILIES d) as [[| |bag]|] eqn:G; try discriminate;
      inversion H; subst node'; clear H; rewrite Hq; destruct q; auto;
      unfold bag_lookup; simpl; rewrite get_set_eq, G.
    + now apply get_set_ne.
    + simpl. apply String.eqb_neq in Nb. now rewrite Nb.
  - destruct (insert_at _ p b v) as [c'|] eqn:E; simpl in H; [|discriminate].
    inversion H; subst node'; clear H.
    assert (Nt : t <> FAMILIES) by (intros ->; apply Np; now left).
    assert (Np' : ~ In FAMILIES p) by (intros I; apply Np; now right).
    destruct q as [|t' q].
    + unfold bag_lookup. simpl. rewrite get_set_ne; auto.
    + assert (Nq' : ~ In FAMILIES q) by (intros I; apply Nq; now right).
      rewrite !bag_lookup_cons, get_set.
      destruct (String.eqb_spec t t') as [<-|Ntt]; auto.
      rewrite (IH _ q _ _ b' _ E); auto.
      destruct (Dict.get t d); auto. apply bag_lookup_empty.
Qed.

(** Inserting a family puts it in the bag at its path. *)
Lemma insert_at_self p : forall node b v node',
    insert_at node p b v = Ok node' -> ~ In FAMILIES p ->
    bag_lookup node' p b = Some v.
Proof.
  induction p as [|t p IH]; intros node b v node' H Np;
    (destruct node as [| |d]; [discriminate H..|]); simpl in H.
  - unfold bag_lookup. simpl.
    destruct (Dict.get FAMILIES d) as [[| |bag]|] eqn:G; try discriminate;
      inversion H; subst node'; clear H; rewrite get_set_eq.
    + apply get_set_eq.
    + simpl. now rewrite String.eqb_refl.
  - destruct (insert_at _ p b v) as [c'|] eqn:E; simpl in H; [|discriminate].
    inversion H; subst node'; clear H.
    rewrite bag_lookup_cons, get_set_eq. apply (IH _ _ _ _ E).
    intros I; apply Np; now right.
Qed.

(** *** Trees without the reserved key among the label tokens *)

Lemma walk_inert p : forall node n,
    inert node -> walk node p = Ok n -> inert n.
Proof.
  induction p as [|t p IH]; intros node n I H; simpl in H.
  - now inversion H; subst.
  - destruct node as [| |d]; try discriminate.
    inversion I as [| |? G Hd]; subst.
    destruct (Dict.get t d) as [c|] eqn:E.
    + apply get_In in E. apply Hd in E.
      destruct c; [inversion H; subst; constructor | eapply IH; eauto..].
    + inversion H; subst; constructor.
Qed.

Lemma opt_value_inert o : inert (opt_value o).
Proof. destruct o; constructor. Qed.

Local Ltac inert_entries :=
  simpl; intros ? ? HI;
  repeat (destruct HI as [HI|HI];
          [inversion HI; subst; try apply opt_value_inert; try constructor|]);
  try contradiction.

Lemma member_value_inert m : inert (member_value m).
Proof. constructor; [reflexivity | inert_entries]. Qed.

Lemma family_value_inert fam :
  ~ In FAMILIES (Dict.keys (members fam)) -> inert (family_value fam).
Proof.
  intros N. constructor; [reflexivity|].
  simpl; intros k v [E|[E|[]]]; inversion E; subst; clear E.
  - destruct (fmeta fam); constructor; [reflexivity | inert_entries].
  - constructor.
    + apply get_None. unfold Dict.keys. rewrite map_map. simpl. exact N.
    + intros k v I. apply in_map_iff in I as ([k' m] & E & _).
      inversion E; subst. apply member_value_inert.
Qed.

Section Clean.

(** All the families of the catalog. *)
Variable fams : list (string * Family).

(** No family has the reserved key as a base or as a measure name. *)
Hypothesis keys_ok : forall b fam,
    In (b, fam) fams ->
    b <> FAMILIES /\ ~ In FAMILIES (Dict.keys (members fam)).

Lemma node_ok_empty path : node_ok fams path (VDict []).
Proof. constructor; [constructor | intros ? ? [] | intros ? []]. Qed.

Lemma bag_ok_inert path v : bag_ok fams path v -> inert v.
Proof.
  intros (bag & -> & ND & H). constructor.
  - apply get_None. intros I. apply in_map_iff in I as ([b x] & E & I).
    simpl in E. subst b. destruct (H _ _ I) as (fam & If & _).
    now destruct (keys_ok _ _ If).
  - intros b x I. destruct (H _ _ I) as (fam & If & -> & _).
    apply family_value_inert. now destruct (keys_ok _ _ If).
Qed.

Lemma insert_at_ok p : forall path node b fam,
    node_ok fams path node -> ~ In FAMILIES p ->
    In (b, fam) fams -> label_path b fam = Ok (path ++ p) ->
    exists node', insert_at node p b (family_value fam) = Ok node'
                  /\ node_ok fams path node'.
Proof.
  induction p as [|t p IH]; intros path node b fam OK Np If Hl;
    inversion OK as [? d ND Hc Hb]; subst; simpl.
  - rewrite app_nil_r in Hl.
    destruct (Dict.get FAMILIES d) as [bagv|] eqn:G.
    + destruct (Hb _ (get_In _ _ G)) as (bag & -> & NDb & Hbag).
      eexists; split; [reflexivity|]. constructor.
      * now apply NoDup_set.
      * intros k v I Nk. apply In_set in I as [[-> _]|I]; [congruence|auto].
      * intros v I. apply In_set_same in I; auto. subst v.
        exists (Dict.set b (family_value fam) bag).
        split; [reflexivity|]. split; [now apply NoDup_set|].
        intros b' x I. apply In_set in I as [[-> ->]|I]; eauto.
    + eexists; split; [reflexivity|]. constructor.
      * now apply NoDup_set.
      * intros k v I Nk. apply In_set in I as [[-> _]|I]; [congruence|auto].
      * intros v I. apply In_set_same in I; auto. subst v.
        exists [(b, family_value fam)].
        split; [reflexivity|]. split; [constructor; [intros []|constructor]|].
        intros b' x [E|[]]. inversion E; subst. eauto.
  - assert (Nt : t <> FAMILIES) by (intros ->; apply Np; now left).
    assert (Np' : ~ In FAMILIES p) by (intros I; apply Np; now right).
    assert (OKc : node_ok fams (path ++ [t])
                          (match Dict.get t d with
                           | Some c => c
                           | None => VDict []
                           end)).
    { destruct (Dict.get t d) as [c|] eqn:G.
      - apply Hc; auto. now apply get_In.
      - apply node_ok_empty. }
    destruct (IH _ _ b fam OKc Np' If) as (c' & E & OK').
    { now rewrite <- app_assoc. }
    rewrite E. simpl. eexists; split; [reflexivity|]. constructor.
    + now apply NoDup_set.
    + intros k v I Nk. apply In_set in I as [[-> ->]|I]; auto.
    + intros v I. apply In_set in I as [[E' _]|I]; auto. congruence.
Qed.

(** What [families_at] finds at any path of such a tree. *)
Lemma walk_ok p : forall path node n,
    node_ok fams path node -> walk node p = Ok n ->
    n = VNone \/ node_ok fams (path ++ p) n \/ (inert n /\ In FAMILIES p).
Proof.
  induction p as [|t p IH]; intros path node n OK H; simpl in H.
  - inversion H; subst. rewrite app_nil_r. auto.
  - inversion OK as [? d ND Hc Hb]; subst.
    destruct (Dict.get t d) as [c|] eqn:G; [|inversion H; auto].
    apply get_In in G.
    destruct (String.eqb_spec t FAMILIES) as [->|Nt].
    + apply Hb, bag_ok_inert in G.
      assert (inert n).
      { destruct c; [inversion H; constructor | eapply walk_inert; eauto..]. }
      right; right. split; auto. now left.
    + specialize (Hc _ _ G Nt).
      inversion Hc; subst. apply (IH _ _ _ Hc) in H.
      rewrite <- app_assoc in H. simpl in H.
      destruct H as [?|[?|[? ?]]]; auto.
      right; right. split; auto. now right.
Qed.

(** No family has the reserved key among the tokens of its path. *)
Hypothesis clean : forall b fam path,
    In (b, fam) fams -> label_path b fam = Ok path -> ~ In FAMILIES path.

Hypothesis metas : forall b fam, In (b, fam) fams -> fmeta fam <> None.

Lemma label_path_ok b fam :
  In (b, fam) fams -> exists path, label_path b fam = Ok path.
Proof.
  intros I. apply metas in I. unfold label_path.
  destruct (fmeta fam); [|congruence].
  match goal with |- context [match ?x with [] => _ | _ :: _ => _ end] =>
                    destruct x end; eauto.
Qed.

(** The second loop of [__init__] over a part [l] of the families. *)
Lemma build_tree_ok l : forall root,
    incl l fams -> NoDup (Dict.keys l) -> node_ok fams [] root ->
    exists tree,
      build_tree root l = Ok tree /\ node_ok fams [] tree /\
      (forall b fam, In (b, fam) l ->
                     exists path, label_path b fam = Ok path /\
                                  bag_lookup tree path b
                                  = Some (family_value fam)) /\
      (forall q b x, ~ In FAMILIES q -> ~ In b (Dict.keys l) ->
                     bag_lookup root q b = Some x ->
                     bag_lookup tree q b = Some x).
Proof.
  induction l as [|[b fam] l IH]; intros root Hi ND OK; simpl.
  - exists root. repeat split; auto. intros ? ? [].
  - assert (If : In (b, fam) fams) by (apply Hi; now left).
    destruct (label_path_ok _ _ If) as (path & Hp).
    assert (Np : ~ In FAMILIES path) by eauto.
    destruct (@insert_at_ok path [] root b fam OK Np If Hp) as (root1 & E & OK1).
    unfold add_family. rewrite Hp. simpl. rewrite E. simpl.
    inversion ND as [|? ? Nb ND']; subst.
    destruct (IH root1) as (tree & Et & OKt & Hin & Hkeep); auto.
    { intros x I. apply Hi. now right. }
    exists tree. split; [exact Et|]. split; [exact OKt|]. split.
    + intros b' fam' [Eq|I].
      * inversion Eq; subst. exists path. split; auto.
        apply Hkeep; auto. eapply insert_at_self; eauto.
      * auto.
    + intros q b' x Nq Nk H. apply Hkeep; [exact Nq| |].
      * intros I. apply Nk. now right.
      * assert (b' <> b) by (intros ->; apply Nk; now left).
        erewrite insert_at_other; eauto.
Qed.

End Clean.

End TreeFacts.

(** ** The constructed object *)

Module InitFacts.
Import CensusProfileTree AggregatorSpec AggregatorFacts DictFacts TreeSpec TreeFacts.
Import Grammar ClassifierFacts.

Lemma reserved_free_spec fams :
  reserved_free fams = true ->
  forall b fam path,
    In (b, fam) fams -> label_path b fam = Ok path -> ~ In FAMILIES path.
Proof.
  unfold reserved_free. rewrite forallb_forall.
  intros H b fam path I Hp Hin. specialize (H _ I). cbn [fst snd] in H.
  rewrite Hp in H. apply negb_true_iff in H.
  assert (E : existsb (String.eqb FAMILIES) path = true).
  { apply existsb_exists. exists FAMILIES.
    split; [exact Hin | apply String.eqb_refl]. }
  rewrite E in H. discriminate.
Qed.

Lemma base_of_ne p v : VAR_RE_match v = Some p -> base_of p <> FAMILIES.
Proof.
  intros H. assert (G : group_form (p_group p)).
  { apply VAR_RE_match_sound in H as [P|(? & _ & P)]; apply P. }
  destruct G as (d & _ & [E|[E|E]]); unfold base_of; rewrite E; discriminate.
Qed.

Lemma measure_of_ne p v : VAR_RE_match v = Some p -> measure_of p <> FAMILIES.
Proof.
  intros H. assert (G : In (p_suffix p) suffixes).
  { apply VAR_RE_match_sound in H as [P|(? & _ & P)]; apply P. }
  unfold measure_of. simpl in G.
  repeat (destruct G as [<-|G]; [discriminate|]). contradiction.
Qed.

Lemma last_of_Some b measure c vi :
  last_of b measure c = Some vi ->
  In vi c /\ has_measure b measure vi = true.
Proof.
  induction c as [|x c IH]; simpl; [discriminate|].
  destruct (last_of b measure c) as [r|].
  - intros [= ->]. destruct IH as [I H]; auto.
  - destruct (has_measure b measure x) eqn:E; [|discriminate].
    intros [= ->]. auto.
Qed.

Lemma last_of_In b measure c vi :
  In vi c -> has_measure b measure vi = true ->
  last_of b measure c <> None.
Proof.
  induction c as [|x c IH]; simpl; [tauto|].
  intros [->|I] H.
  - destruct (last_of b measure c); [discriminate|]. rewrite H. discriminate.
  - specialize (IH I H). destruct (last_of b measure c); congruence.
Qed.

Lemma families_get c b fam :
  In (b, fam) (build_families c) <-> Dict.get b (build_families c) = Some fam.
Proof.
  split; [apply In_get, build_families_spec | apply get_In].
Qed.

Lemma families_keys_ok c b fam :
  In (b, fam) (build_families c) ->
  b <> FAMILIES /\ ~ In FAMILIES (Dict.keys (members fam)).
Proof.
  intros I. apply families_get in I.
  pose proof (proj2 (build_families_spec c) b) as S. rewrite I in S.
  destruct S as (vi & F & _ & _ & L). split.
  - apply find_some in F as [_ F]. unfold has_base in F.
    destruct (VAR_RE_match (fst vi)) as [p|] eqn:E; [|discriminate].
    apply String.eqb_eq in F. subst b. eapply base_of_ne; eauto.
  - intros Hk. apply get_None in Hk; auto. rewrite L.
    destruct (last_of b FAMILIES c) as [vj|] eqn:E; auto.
    apply last_of_Some in E as [_ E]. unfold has_measure in E.
    destruct (VAR_RE_match (fst vj)) as [p|] eqn:Ev; [|discriminate].
    apply andb_true_iff in E as [_ E]. apply String.eqb_eq in E.
    exfalso. eapply measure_of_ne; eauto.
Qed.

Lemma families_metas c b fam :
  In (b, fam) (build_families c) -> fmeta fam <> None.
Proof.
  intros I. apply families_get in I.
  destruct (families_meta _ _ I) as (m & -> & _). discriminate.
Qed.

Lemma build_by_group_ok l : forall acc,
    (forall b fam, In (b, fam) l -> fmeta fam <> None) ->
    exists g, build_by_group l acc = Ok g.
Proof.
  induction l as [|[b fam] l IH]; intros acc H; simpl; eauto.
  destruct (fmeta fam) eqn:E.
  - apply IH. intros; eapply H; right; eauto.
  - exfalso. eapply H; [left; eauto | auto].
Qed.

Lemma init_inv c obj :
  __init__ c = Ok obj ->
  _families obj = build_families c /\
  build_tree (VDict []) (build_families c) = Ok (_tree obj).
Proof.
  unfold __init__. destruct (build_tree _ _) as [tree|]; [|discriminate].
  simpl. destruct (build_by_group _ _); [|discriminate].
  simpl. intros [= <-]. auto.
Qed.

(** The tree of an object built from a catalog without the reserved key. *)
Lemma init_tree c obj :
  __init__ c = Ok obj -> reserved_free (_families obj) = true ->
  node_ok (_families obj) [] (_tree obj) /\
  forall b fam, In (b, fam) (_families obj) ->
                exists path, label_path b fam = Ok path /\
                             bag_lookup (_tree obj) path b
                             = Some (family_value fam).
Proof.
  intros H R. apply init_inv in H as [Hf Ht]. rewrite Hf in *.
  destruct (@build_tree_ok (build_families c) (reserved_free_spec _ R)
              (@families_metas c) (build_families c) (VDict []))
    as (tree & E & OK & Hin & _).
  - apply incl_refl.
  - apply build_families_spec.
  - apply node_ok_empty.
  - rewrite Ht in E. inversion E; subst tree. auto.
Qed.

(** The build succeeds on a catalog without the reserved key. *)
Lemma init_ok c :
  reserved_free (build_families c) = true -> exists obj, __init__ c = Ok obj.
Proof.
  intros R.
  destruct (@build_tree_ok (build_families c) (reserved_free_spec _ R)
              (@families_metas c) (build_families c) (VDict []))
    as (tree & E & _).
  - apply incl_refl.
  - apply build_families_spec.
  - apply node_ok_empty.
  - unfold __init__. rewrite E. simpl.
    destruct (build_by_group_ok (build_families c) [] (@families_metas c))
      as (g & ->).
    simpl. eauto.
Qed.

Lemma bag_lookup_families_at obj path b x :
  bag_lookup (_tree obj) path b = Some x ->
  exists bag, families_at obj (PathList path) = Ok (VDict bag)
              /\ Dict.get b bag = Some x.
Proof.
  unfold bag_lookup, families_at, subtree. simpl.
  destruct (walk (_tree obj) path) as [[| |d]|]; try discriminate.
  simpl. destruct (Dict.get FAMILIES d) as [[| |bag]|] eqn:G; try discriminate.
  intros H. exists bag. split; auto.
  destruct d; [discriminate G | reflexivity].
Qed.

End InitFacts.

(** ** The path of a family *)

Module PathFacts.
Import CensusProfileTree PathSpec.





End PathFacts.

(** ** The XML dump *)

Module XmlFacts.
Import CensusProfileTree DictFacts TreeSpec TreeFacts XmlSpec.

Lemma family_elements_eq tag attrib text children :
  family_elements (Element tag attrib text children)
  = (if String.eqb tag "Family"
     then [Element tag attrib text children] else [])
    ++ flat_map family_elements children.
Proof.
  simpl; f_equal; induction children as [|c l IH]; simpl; congruence.
Qed.

Lemma sequence_Forall2 A (l : list (outcome A)) r :
  sequence l = Ok r <-> Forall2 (fun x a => x = Ok a) l r.
Proof.
  revert r. induction l as [|x l IH]; intros r; simpl.
  - split; [intros [= <-]; constructor | intros H; now inversion H].
  - destruct x as [a|e]; simpl.
    + destruct (sequence l) as [r'|e'] eqn:E; simpl.
      * split.
        -- intros [= <-]. constructor; auto. now apply IH.
        -- intros H. inversion H as [|? ? ? ? Ha Hr]; subst.
           inversion Ha; subst. apply IH in Hr. congruence.
      * split; [discriminate|].
        intros H. inversion H as [|? ? ? ? Ha Hr]; subst.
        apply IH in Hr. discriminate.
    + split; [discriminate|].
      intros H. inversion H as [|? ? ? ? Ha Hr]; subst. discriminate.
Qed.

Lemma sequence_map_ok A B (f : A -> outcome B) (g : A -> B) l :
  (forall x, In x l -> f x = Ok (g x)) ->
  sequence (map f l) = Ok (map g l).
Proof.
  induction l as [|x l IH]; intros H; simpl; auto.
  rewrite (H x) by now left. simpl.
  rewrite IH by (intros; apply H; now right). reflexivity.
Qed.

Lemma insert_sorted_map V W (f : V -> W) (kv : string * V) l :
  Dict.insert_sorted (fst kv, f (snd kv))
                     (map (fun km => (fst km, f (snd km))) l)
  = map (fun km => (fst km, f (snd km))) (Dict.insert_sorted kv l).
Proof.
  induction l as [|kv' l IH]; simpl; auto.
  destruct (String.leb (fst kv) (fst kv')); simpl; auto.
  now rewrite IH.
Qed.

Lemma sorted_map V W (f : V -> W) (d : list (string * V)) :
  Dict.sorted (map (fun km => (fst km, f (snd km))) d)
  = map (fun km => (fst km, f (snd km))) (Dict.sorted d).
Proof.
  induction d as [|kv d IH]; simpl; auto.
  rewrite IH. apply (insert_sorted_map f kv).
Qed.

Lemma sequence_exists A (l : list (outcome A)) :
  (forall x, In x l -> exists a, x = Ok a) -> exists r, sequence l = Ok r.
Proof.
  induction l as [|x l IH]; intros H; simpl; eauto.
  destruct (H x) as (a & ->); [now left|].
  destruct IH as (r & ->); [intros; apply H; now right|].
  simpl. eauto.
Qed.

Lemma Forall2_In_l A B (R : A -> B -> Prop) l r x :
  Forall2 R l r -> In x l -> exists a, In a r /\ R x a.
Proof.
  induction 1 as [|x' a' l r HR HF IH]; simpl; [tauto|].
  intros [->|I]; [eauto|]. destruct (IH I) as (a & Ia & Ha). eauto.
Qed.

Lemma Forall2_In_r A B (R : A -> B -> Prop) l r a :
  Forall2 R l r -> In a r -> exists x, In x l /\ R x a.
Proof.
  induction 1 as [|x' a' l r HR HF IH]; simpl; [tauto|].
  intros [->|I]; [eauto|]. destruct (IH I) as (x & Ix & Hx). eauto.
Qed.

Section Dump.

Variable repr_dict : list (string * value) -> string.
Variables include_labels include_attributes : bool.

Local Abbreviation member_xml := (member_xml repr_dict include_labels include_attributes).
Local Abbreviation family_xml := (family_xml repr_dict include_labels include_attributes).
Local Abbreviation families_xml := (families_xml repr_dict include_labels include_attributes).
Local Abbreviation append_node_xml :=
  (_append_node_xml repr_dict include_labels include_attributes).

Local Abbreviation member_element :=
  (XmlSpec.member_element repr_dict include_labels include_attributes).
Local Abbreviation family_element :=
  (XmlSpec.family_element repr_dict include_labels include_attributes).
Local Abbreviation kids_of :=
  (XmlSpec.kids_of repr_dict include_labels include_attributes).

Lemma member_xml_ok measure mem :
  member_xml measure (member_value mem) = Ok (member_element measure mem).
Proof.
  unfold CensusProfileTree.member_xml, XmlSpec.member_element, member_value.
  unfold get_default. simpl.
  destruct (include_attributes && truthy (opt_value (m_attributes mem)))
           eqn:E; simpl; auto.
  destruct (m_attributes mem); simpl in *; auto.
  now rewrite andb_false_r in E.
Qed.

Lemma member_element_families measure mem :
  family_elements (member_element measure mem) = [].
Proof.
  unfold XmlSpec.member_element. rewrite family_elements_eq. simpl.
  rewrite flat_map_app.
  destruct (include_labels && _); destruct (include_attributes && _);
    simpl; auto; rewrite !app_nil_r;
    match goal with
    | |- context [map ?f ?l] => induction l; simpl; auto
    end.
Qed.

Lemma family_xml_ok b fam m :
  fmeta fam = Some m ->
  family_xml b (family_value fam) = Ok (family_element fam m).
Proof.
  intros M.
  unfold CensusProfileTree.family_xml, XmlSpec.family_element, family_value.
  rewrite M. unfold get_default. simpl.
  rewrite (sorted_map member_value).
  rewrite map_map.
  erewrite sequence_map_ok; [reflexivity|].
  intros [k mem] _. apply member_xml_ok.
Qed.

Lemma family_element_families fam m :
  family_elements (family_element fam m) = [family_element fam m].
Proof.
  unfold XmlSpec.family_element at 1. rewrite family_elements_eq. simpl.
  f_equal. rewrite flat_map_app.
  replace (flat_map family_elements (map _ _)) with (@nil element).
  - destruct include_labels; reflexivity.
  - induction (Dict.sorted (members fam)) as [|km l IH];
      cbn [flat_map map]; auto.
    now rewrite member_element_families.
Qed.

Lemma family_element_reconstructs fam m :
  fmeta fam = Some m -> reconstructs fam (family_element fam m).
Proof.
  intros M. exists m. split; auto. split; [reflexivity|].
  split; [intros g Hg; simpl; now rewrite Hg|].
  split; [intros c Hc; simpl; now rewrite Hc|].
  unfold member_pairs, XmlSpec.family_element. simpl.
  rewrite filter_app.
  replace (filter _ (if include_labels then _ else _)) with (@nil element)
    by (destruct include_labels; reflexivity).
  simpl. induction (Dict.sorted (members fam)) as [|km l IH]; simpl; auto.
  now rewrite IH.
Qed.

Lemma append_node_xml_eq d :
  append_node_xml (VDict d)
  = (nodes <- sequence (map node_element (Dict.sorted (kids_of d))) ;;
     fams <- families_xml (Dict.get FAMILIES d) ;;
     Ok (nodes ++ fams)).
Proof.
  simpl. unfold XmlSpec.kids_of.
  match goal with
  | |- bind (sequence (map _ (Dict.sorted ?a))) _
       = bind (sequence (map _ (Dict.sorted ?b))) _ =>
      replace a with b; [reflexivity|]
  end.
  induction d as [|[k v] d IH]; simpl; auto.
  destruct (String.eqb k FAMILIES); simpl; auto. now rewrite IH.
Qed.

Variable fams : list (string * Family).
Hypothesis metas : forall b fam, In (b, fam) fams -> fmeta fam <> None.

(** The elements that a bag of families gives. *)
Lemma families_xml_ok path d :
  (forall v, In (FAMILIES, v) d -> bag_ok fams path v) ->
  exists els,
    families_xml (Dict.get FAMILIES d) = Ok els /\
    (forall e, In e (flat_map family_elements els) ->
               exists b fam m, In (b, fam) fams /\ fmeta fam = Some m /\
                               e = family_element fam m) /\
    (forall bag b x,
        Dict.get FAMILIES d = Some (VDict bag) -> In (b, x) bag ->
        exists fam m, In (b, fam) fams /\ x = family_value fam /\
                      fmeta fam = Some m /\
                      In (family_element fam m)
                         (flat_map family_elements els)).
Proof.
  intros Hb. destruct (Dict.get FAMILIES d) as [v|] eqn:G.
  2:{ exists []. repeat split; [intros ? []|discriminate]. }
  destruct (Hb _ (get_In _ _ G)) as (bag & -> & _ & Hbag).
  assert (Hx : forall bx, In bx (Dict.sorted bag) ->
                exists fam m, In (fst bx, fam) fams /\
                              snd bx = family_value fam /\
                              fmeta fam = Some m /\
                              family_xml (fst bx) (snd bx)
                              = Ok (family_element fam m)).
  { intros [b x] I. apply (proj1 (sorted_In _ _)) in I.
    destruct (Hbag _ _ I) as (fam & If & -> & _).
    destruct (fmeta fam) as [m|] eqn:M; [|now apply metas in If].
    exists fam, m. repeat split; auto. now apply family_xml_ok. }
  destruct (@sequence_exists _ (map (fun bf => family_xml (fst bf) (snd bf))
                                    (Dict.sorted bag))) as (r & Hr).
  { intros o I. apply in_map_iff in I as (bx & <- & I).
    destruct (Hx _ I) as (? & ? & _ & _ & _ & ->). eauto. }
  pose proof Hr as F2. apply sequence_Forall2 in F2.
  exists (match bag with [] => [] | _ :: _ => r end).
  split; [|split].
  - unfold CensusProfileTree.families_xml.
    destruct bag; [reflexivity|]. cbn [truthy]. exact Hr.
  - intros e I. assert (I' : In e (flat_map family_elements r)).
    { destruct bag; [destruct I | exact I]. }
    clear I. apply in_flat_map in I' as (a & Ia & Ie).
    destruct (Forall2_In_r _ F2 Ia) as (o & Io & Ho).
    apply in_map_iff in Io as (bx & <- & I).
    destruct (Hx _ I) as (fam & m & If & _ & M & E).
    rewrite E in Ho. inversion Ho; subst a.
    rewrite family_element_families in Ie. destruct Ie as [<-|[]].
    exists (fst bx), fam, m. auto.
  - intros bag' b x [= <-] I.
    assert (Is : In (b, x) (Dict.sorted bag))
      by now apply (proj2 (sorted_In _ _)).
    destruct (Hx _ Is) as (fam & m & If & Ex & M & E). simpl in *.
    exists fam, m. repeat split; auto.
    destruct (Forall2_In_l _ F2 (in_map _ _ _ Is)) as (a & Ia & Ha).
    simpl in Ha. rewrite E in Ha. inversion Ha; subst a.
    destruct bag; [destruct I|].
    apply in_flat_map. exists (family_element fam m). split; auto.
    rewrite family_element_families. now left.
Qed.

Lemma node_element_families k els :
  family_elements (Element "Node" [("name", VStr k)] None els)
  = flat_map family_elements els.
Proof. now rewrite family_elements_eq. Qed.

(** The walk of [_append_node_xml] over a tree whose bags hold families:
    it returns, and the [<Family>] elements it appends are those of the
    families in the bags below the node. *)
Lemma append_node_ok path node :
  node_ok fams path node ->
  exists els,
    append_node_xml node = Ok els /\
    (forall e, In e (flat_map family_elements els) ->
               exists b fam m, In (b, fam) fams /\ fmeta fam = Some m /\
                               e = family_element fam m) /\
    (forall q b x,
        ~ In FAMILIES q -> bag_lookup node q b = Some x ->
        exists fam m, In (b, fam) fams /\ x = family_value fam /\
                      fmeta fam = Some m /\
                      In (family_element fam m)
                         (flat_map family_elements els)).
Proof.
  induction 1 as [path d ND Hc IH Hb].
  destruct (families_xml_ok _ Hb) as (fels & Ef & Hf1 & Hf2).
  (* every child gives its elements *)
  assert (Hk : forall kr, In kr (Dict.sorted (kids_of d)) ->
               exists v els,
                 In (fst kr, v) d /\ fst kr <> FAMILIES /\
                 append_node_xml v = Ok els /\ snd kr = Ok els /\
                 node_element kr
                 = Ok (Element "Node" [("name", VStr (fst kr))] None els)).
  { intros kr I. apply (proj1 (sorted_In _ _)) in I.
    apply in_map_iff in I as ([k v] & <- & I).
    apply filter_In in I as [I N]. simpl in *.
    apply negb_true_iff, String.eqb_neq in N.
    destruct (IH _ _ I N) as (els & E & _).
    exists v, els. repeat split; auto.
    - pose proof (Hc _ _ I N) as OKv. inversion OKv; subst. exact E.
    - unfold node_element. simpl.
      pose proof (Hc _ _ I N) as OKv. inversion OKv; subst.
      now rewrite E. }
  destruct (@sequence_exists _ (map node_element (Dict.sorted (kids_of d))))
    as (nodes & En).
  { intros o I. apply in_map_iff in I as (kr & <- & I).
    destruct (Hk _ I) as (? & ? & _ & _ & _ & _ & ->). eauto. }
  pose proof En as F2. apply sequence_Forall2 in F2.
  exists (nodes ++ fels). split; [|split].
  - rewrite append_node_xml_eq, En. simpl. rewrite Ef. reflexivity.
  - intros e I. rewrite flat_map_app in I. apply in_app_or in I as [I|I];
      [|now apply Hf1].
    apply in_flat_map in I as (a & Ia & Ie).
    destruct (Forall2_In_r _ F2 Ia) as (o & Io & Ho).
    apply in_map_iff in Io as (kr & <- & I).
    destruct (Hk _ I) as (v & els & Iv & N & E & _ & En').
    rewrite En' in Ho. inversion Ho; subst a.
    rewrite node_element_families in Ie.
    destruct (IH _ _ Iv N) as (els' & E' & H1 & _).
    rewrite E in E'. inversion E'; subst els'. now apply H1.
  - intros q b x Nq L. rewrite flat_map_app.
    destruct q as [|t q].
    + unfold bag_lookup in L. simpl in L.
      destruct (Dict.get FAMILIES d) as [[| |bag]|] eqn:G;
        try discriminate.
      destruct (Hf2 bag b x eq_refl (get_In _ _ L))
        as (fam & m & ? & ? & ? & ?).
      exists fam, m. repeat split; auto. apply in_or_app. now right.
    + rewrite bag_lookup_cons in L.
      destruct (Dict.get t d) as [c|] eqn:G; [|discriminate].
      assert (Nt : t <> FAMILIES) by (intros ->; apply Nq; now left).
      assert (Nq' : ~ In FAMILIES q) by (intros I; apply Nq; now right).
      apply get_In in G.
      destruct (IH _ _ G Nt) as (els & E & _ & H2).
      destruct (H2 _ _ _ Nq' L) as (fam & m & ? & ? & ? & Ie).
      exists fam, m. repeat split; auto. apply in_or_app. left.
      assert (Ik : In (t, append_node_xml c) (Dict.sorted (kids_of d))).
      { apply (proj2 (sorted_In _ _)). unfold XmlSpec.kids_of.
        apply in_map_iff. exists (t, c). split.
        - simpl. pose proof (Hc _ _ G Nt) as OKc. now inversion OKc.
        - apply filter_In. split; auto. simpl.
          now apply negb_true_iff, String.eqb_neq. }
      destruct (Forall2_In_l _ F2 (in_map node_element _ _ Ik))
        as (a & Ia & Ha).
      unfold node_element in Ha. simpl in Ha. rewrite E in Ha.
      inversion Ha; subst a.
      apply in_flat_map. eexists. split; [exact Ia|].
      now rewrite node_element_families.
Qed.

End Dump.

End XmlFacts.

(** * The claims *)

Section Claims.
Import CensusProfileTree AggregatorSpec AggregatorFacts DictFacts TreeFacts.
Import TreeSpec InitFacts Grammar ClassifierFacts Scenario XmlSpec.

Lemma init_arab : __init__ arab_catalog = Ok arab_object.
Proof. vm_compute. reflexivity. Qed.

(** C1: the code diverges from the claim and from the documentation of
  [families_at] ("dict of base -> family, or {}").  For the catalog of
  one variable [DP02_0126E] whose label is the reserved key [_families_],
  [families_at] at the empty path returns a dict whose one key is the
  reserved key, not a base of the mapping, and whose value under it is a
  bag, not a family: the bags do not partition the mapping. *)
Theorem families_at_reserved_label :
exists obj fam,
  __init__ reserved_catalog = Ok obj /\
  _families obj = [("DP02_0126", fam)] /\
  families_at obj (PathList [])
  = Ok (VDict [(FAMILIES, VDict [("DP02_0126", family_value fam)])]) /\
  Dict.get FAMILIES (_families obj) = None /\
  VDict [("DP02_0126", family_value fam)] <> family_value fam.
Proof.
eexists. eexists. split; [vm_compute; reflexivity|].
split; [reflexivity|]. split; [reflexivity|]. split; [reflexivity|].
discriminate.
Qed.

(** C4: the claim holds of the documentation of [subtree] ("or None if not
  found") but not of the code.  On the object of the concrete scenario the
  walk enters the bag through the reserved key, reaches the string
  [meta.base], and the next [node.get] raises [AttributeError];
  [families_at] raises on the path that ends at that string. *)
Theorem subtree_raises :
__init__ arab_catalog = Ok arab_object /\
subtree arab_object
        (PathList (arab_path ++ [FAMILIES; "DP02_0126"; "meta"; "base"; "x"]))
= Raise AttributeError /\
families_at arab_object
            (PathList (arab_path ++ [FAMILIES; "DP02_0126"; "meta"; "base"]))
= Raise AttributeError.
Proof. split; [exact init_arab|]. split; reflexivity. Qed.

(** C5.  For a classifiable code, the family that [family] returns has
  [meta.base] equal to group, underscore, line of the code; and [family]
  does return a family for every classifiable code of the catalog. *)
Theorem family_base c obj code p :
__init__ c = Ok obj ->
VAR_RE_match code = Some p ->
(forall fam,
    family obj code = Some fam ->
    exists m, fmeta fam = Some m /\
              base m = (p_group p ++ "_" ++ p_line p)%string) /\
(forall inf, In (code, inf) c -> family obj code <> None).
Proof.
intros Hi Hm. destruct (init_inv _ Hi) as [Hf _].
unfold family. rewrite Hm, Hf. split.
- intros fam G. destruct (families_meta _ _ G) as (m & M & B). eauto.
- intros inf I G.
  pose proof (proj2 (build_families_spec c) (base_of p)) as S.
  rewrite G in S. simpl in S.
  apply (find_none _ _ S) in I. unfold has_base in I. simpl in I.
  rewrite Hm, String.eqb_refl in I. discriminate.
Qed.

Lemma family_base_witness :
__init__ arab_catalog = Ok arab_object /\
VAR_RE_match "DP02_0126E" = Some (Parts "DP02" "0126" "E") /\
exists m, fmeta arab_family = Some m /\ base m = "DP02_0126".
Proof.
split; [exact init_arab|]. split; [reflexivity|].
apply (proj1 (@family_base arab_catalog arab_object "DP02_0126E"
                (Parts "DP02" "0126" "E") init_arab eq_refl)).
reflexivity.
Defined.

(** C7.  In catalog order: the family of a base exists exactly when the
  catalog has a classifiable variable of that base; its meta is that of the
  first such variable; its members have distinct measure names, and the
  member of a measure name is the last variable of that base and measure.
  One more variable leaves the meta of an existing family as it is and
  changes its members at most at the measure name of that variable, where
  it puts the variable. *)
Theorem aggregation_order c b :
match Dict.get b (build_families c) with
| None => first_of b c = None
| Some fam =>
    exists vi,
      first_of b c = Some vi /\
      fmeta fam = Some (Meta b (i_group (snd vi)) (i_concept (snd vi))
                             (i_label (snd vi))) /\
      NoDup (Dict.keys (members fam)) /\
      (forall measure,
          Dict.get measure (members fam)
          = option_map (fun vj => Member (fst vj) (i_label (snd vj))
                                         (i_predicateType (snd vj))
                                         (i_attributes (snd vj)))
                       (last_of b measure c)) /\
      forall v inf,
      exists fam',
        Dict.get b (build_families (c ++ [(v, inf)])) = Some fam' /\
        fmeta fam' = fmeta fam /\
        forall measure,
          Dict.get measure (members fam')
          = if has_measure b measure (v, inf)
            then Some (Member v (i_label inf) (i_predicateType inf)
                              (i_attributes inf))
            else Dict.get measure (members fam)
end.
Proof.
pose proof (proj2 (build_families_spec c) b) as S.
destruct (Dict.get b (build_families c)) as [fam|]; [|exact S].
destruct S as (vi & F & M & ND & L). exists vi.
repeat (split; [assumption|]). intros v inf.
pose proof (proj2 (build_families_spec (c ++ [(v, inf)])) b) as S'.
unfold family_spec in S'. rewrite first_of_snoc, F in S'.
destruct (Dict.get b (build_families (c ++ [(v, inf)]))) as [fam'|];
  [|discriminate].
destruct S' as (vi' & F' & M' & _ & L'). inversion F'; subst vi'.
exists fam'. split; [reflexivity|]. split; [congruence|].
intros measure. rewrite L', last_of_snoc, L.
now destruct (has_measure b measure (v, inf)).
Qed.

(** C9.  When [subtree] returns at some path a node that has the reserved
  key, it returns the bag of that node at the path extended by
  [_families_], and the record of a family of the bag one token further. *)
Theorem subtree_reserved_key obj p d bag :
subtree obj (PathList p) = Ok (VDict d) ->
Dict.get FAMILIES d = Some (VDict bag) ->
subtree obj (PathList (p ++ [FAMILIES])) = Ok (VDict bag) /\
forall b fam,
  Dict.get b bag = Some (family_value fam) ->
  subtree obj (PathList (p ++ [FAMILIES; b])) = Ok (family_value fam).
Proof.
unfold subtree. simpl. generalize (_tree obj). clear obj.
induction p as [|t p IH]; intros node H G; simpl in *.
- inversion H; subst. rewrite G. split; auto.
  intros b fam Gb. now rewrite Gb.
- destruct node as [| |d0]; try discriminate.
  destruct (Dict.get t d0) as [[| |d1]|]; try discriminate.
  + destruct p; discriminate.
  + now apply IH.
Qed.

Lemma subtree_reserved_key_witness :
subtree arab_object (PathList (arab_path ++ [FAMILIES]))
= Ok (VDict [("DP02_0126", family_value arab_family)]) /\
subtree arab_object (PathList (arab_path ++ [FAMILIES; "DP02_0126"]))
= Ok (family_value arab_family).
Proof.
destruct (@subtree_reserved_key arab_object arab_path
            [(FAMILIES, VDict [("DP02_0126", family_value arab_family)])]
            [("DP02_0126", family_value arab_family)] eq_refl eq_refl)
  as [H1 H2].
split; [exact H1 | apply H2; reflexivity].
Defined.

(** C10.  For a code that matches the grammar while no variable of the
  catalog has its base, [family] returns [None]. *)
Theorem family_absent c obj code p :
__init__ c = Ok obj ->
VAR_RE_match code = Some p ->
(forall v inf q, In (v, inf) c -> VAR_RE_match v = Some q ->
                 base_of q <> base_of p) ->
family obj code = None.
Proof.
intros Hi Hm Hn. destruct (init_inv _ Hi) as [Hf _].
unfold family. rewrite Hm, Hf.
pose proof (proj2 (build_families_spec c) (base_of p)) as S.
destruct (Dict.get (base_of p) (build_families c)) as [fam|]; auto.
destruct S as ([v inf] & F & _). apply find_some in F as [I F].
unfold has_base in F. simpl in F.
destruct (VAR_RE_match v) as [q|] eqn:E; [|discriminate].
apply String.eqb_eq in F. exfalso. eapply Hn; eauto.
Qed.

Lemma family_absent_witness :
family arab_object "DP03_0062E" = None.
Proof.
apply (@family_absent arab_catalog arab_object "DP03_0062E"
         (Parts "DP03" "0062" "E") init_arab eq_refl).
intros v inf q [E|[]] H. inversion E; subst.
vm_compute in H. inversion H; subst. vm_compute. discriminate.
Defined.

(** C3: the code accepts a string the claim excludes.  [$] also matches
  just before a newline that ends the string, so a variable code followed
  by a newline is classified, with the parts of the code. *)
Theorem newline_accepted :
VAR_RE_match ("DP02_0126E" ++ NL) = Some (Parts "DP02" "0126" "E") /\
~ var_code ("DP02_0126E" ++ NL).
Proof.
split; [reflexivity|].
intros ([g l x] & G & L & X & E). simpl in *.
destruct G as (d & D & G).
apply digits_2 in D as (a & b & -> & _).
apply digits_4 in L as (c1 & c2 & c3 & c4 & -> & _).
destruct G as [-> | [-> | ->]];
  repeat (destruct X as [<- | X]; [discriminate E|]); contradiction.
Qed.

(** C6, amended.  When [DP02_0126E] with that label is the first variable
  of base [DP02_0126] in the catalog and no family's path has the reserved
  key, the build has a family of base [DP02_0126] with a member under
  [estimate], and [families_at] returns it at
  [["ANCESTRY"; "Total population"; "Arab"]]. *)
Theorem arab_scenario c obj inf :
__init__ c = Ok obj ->
first_of "DP02_0126" c = Some ("DP02_0126E", inf) ->
i_label inf = Some arab_label ->
reserved_free (_families obj) = true ->
exists fam bag,
  Dict.get "DP02_0126" (_families obj) = Some fam /\
  (exists m, fmeta fam = Some m /\ base m = "DP02_0126") /\
  Dict.get "estimate" (members fam) <> None /\
  families_at obj (PathList arab_path) = Ok (VDict bag) /\
  Dict.get "DP02_0126" bag = Some (family_value fam).
Proof.
intros Hi F Hl R. destruct (init_tree _ Hi R) as [_ Hin].
destruct (init_inv _ Hi) as [Hf _].
pose proof (proj2 (build_families_spec c) "DP02_0126") as S.
rewrite Hf in *.
destruct (Dict.get "DP02_0126" (build_families c)) as [fam|] eqn:G;
  [|simpl in S; congruence].
destruct S as (vi & F' & M & _ & L). rewrite F in F'.
inversion F'; subst vi; clear F'.
destruct (Hin _ _ (get_In _ _ G)) as (path & Hp & B).
assert (path = arab_path).
{ unfold label_path in Hp. rewrite M in Hp. unfold meta_of in Hp.
  simpl in Hp. rewrite Hl in Hp. vm_compute in Hp. now inversion Hp. }
subst path. apply bag_lookup_families_at in B as (bag & Fa & Gb).
exists fam, bag. repeat split; eauto.
rewrite L. apply find_some in F as [I _].
pose proof (@last_of_In "DP02_0126" "estimate" c _ I eq_refl) as N.
destruct (last_of "DP02_0126" "estimate" c); [discriminate|congruence].
Qed.

Lemma arab_scenario_witness :
__init__ arab_catalog = Ok arab_object /\
first_of "DP02_0126" arab_catalog = Some ("DP02_0126E", arab_E) /\
exists fam bag,
  Dict.get "DP02_0126" (_families arab_object) = Some fam /\
  (exists m, fmeta fam = Some m /\ base m = "DP02_0126") /\
  Dict.get "estimate" (members fam) <> None /\
  families_at arab_object (PathList arab_path) = Ok (VDict bag) /\
  Dict.get "DP02_0126" bag = Some (family_value fam).
Proof.
split; [exact init_arab|]. split; [reflexivity|].
exact (@arab_scenario arab_catalog arab_object arab_E init_arab
         eq_refl eq_refl eq_refl).
Defined.

(** C6 as stated fails: when the margin-of-error variable of the base comes
  first, the catalog still contains [DP02_0126E] with its label, but the
  family is filed under the label of the first variable and the bag at
  [["ANCESTRY"; "Total population"; "Arab"]] is empty. *)
Lemma arab_scenario_counterexample :
exists obj,
  __init__ moe_first_catalog = Ok obj /\
  In ("DP02_0126E", arab_E) moe_first_catalog /\
  i_label arab_E = Some arab_label /\
  families_at obj (PathList arab_path) = Ok (VDict []) /\
  exists bag,
    families_at obj (PathList ("Margin of Error" :: arab_path))
    = Ok (VDict bag) /\
    Dict.get "DP02_0126" bag <> None.
Proof.
eexists. split; [vm_compute; reflexivity|].
split; [right; left; reflexivity|]. split; [reflexivity|].
split; [vm_compute; reflexivity|].
eexists. split; [vm_compute; reflexivity|]. discriminate.
Qed.



(** C2: the code diverges from the claim and from the documentation of
  [dump_xml] ("Each label level is a <Node name=...>").  The statement is
  about the element tree that [dump_xml] gives to the serialiser, so it
  holds of the written document too.  With the label [_families_] the
  family of base [DP02_0126] is in the mapping, but the tree has no
  [<Node>] for the label and no [<Family>] element with that base.  And a
  family without a group is written with the group [None], where the code
  gives the default of the empty string, as is a family whose group is the
  string [None]: the two catalogs give the same tree. *)
Theorem dump_xml_diverges :
(exists obj doc,
    __init__ reserved_catalog = Ok obj /\
    dump_xml no_repr true true obj "ACSProfile" = Ok doc /\
    Dict.get "DP02_0126" (_families obj) <> None /\
    (forall e, In e (children_of doc) -> tag_of e <> "Node") /\
    forall e, In e (flat_map family_elements (children_of doc)) ->
              attr "base" e <> Some (VStr "DP02_0126")) /\
(exists obj1 obj2 doc,
    __init__ (no_group_catalog None) = Ok obj1 /\
    __init__ (no_group_catalog (Some "None")) = Ok obj2 /\
    dump_xml no_repr true true obj1 "ACSProfile" = Ok doc /\
    dump_xml no_repr true true obj2 "ACSProfile" = Ok doc /\
    _families obj1 <> _families obj2).
Proof.
split.
- eexists. eexists. split; [vm_compute; reflexivity|].
  split; [vm_compute; reflexivity|]. split; [discriminate|].
  split; intros e [<-|[]]; discriminate.
- eexists. eexists. eexists. split; [vm_compute; reflexivity|].
  split; [vm_compute; reflexivity|]. split; [vm_compute; reflexivity|].
  split; [vm_compute; reflexivity|]. discriminate.
Qed.

End Claims.

(** ** The indexes *)

Module IndexFacts.
Import CensusProfileTree AggregatorSpec AggregatorFacts DictFacts TreeSpec.
Import TreeFacts InitFacts IndexSpec.




Lemma add_attributes_get fams a v inf : forall acc,
    Dict.get a (add_attributes fams acc v inf)
    = if lists_attribute a (v, inf)
      then option_map (fun p => Dict.get (base_of p) fams) (VAR_RE_match v)
      else Dict.get a acc.
Proof.
  unfold add_attributes, lists_attribute, classifiable. simpl.
  induction (attribute_codes (i_attributes inf)) as [|x l IH]; intros acc;
    simpl.
  - now rewrite andb_false_r.
  - rewrite IH. destruct (VAR_RE_match v) as [p|]; simpl; auto.
    destruct (existsb (String.eqb a) l); [now rewrite orb_true_r|].
    rewrite orb_false_r, get_set, String.eqb_sym.
    now destruct (String.eqb a x).
Qed.

Lemma build_by_attribute_snoc fams c v inf :
  build_by_attribute fams (c ++ [(v, inf)])
  = add_attributes fams (build_by_attribute fams c) v inf.
Proof. unfold build_by_attribute. now rewrite fold_left_app. Qed.

Lemma last_listing_snoc a c vi :
  last_listing a (c ++ [vi])
  = if lists_attribute a vi then Some vi else last_listing a c.
Proof.
  induction c as [|x c IH]; simpl; auto.
  rewrite IH. now destruct (lists_attribute a vi).
Qed.

Lemma build_by_attribute_spec fams a c :
  Dict.get a (build_by_attribute fams c)
  = option_map (fun vi => match VAR_RE_match (fst vi) with
                          | Some p => Dict.get (base_of p) fams
                          | None => None
                          end)
               (last_listing a c).
Proof.
  induction c as [|[v inf] c IH] using rev_ind; [reflexivity|].
  rewrite build_by_attribute_snoc, add_attributes_get, last_listing_snoc.
  destruct (lists_attribute a (v, inf)) eqn:E; auto. simpl.
  unfold lists_attribute, classifiable in E. simpl in E.
  now destruct (VAR_RE_match v).
Qed.

Lemma last_listing_Some a c vi :
  last_listing a c = Some vi -> In vi c /\ lists_attribute a vi = true.
Proof.
  induction c as [|x c IH]; simpl; [discriminate|].
  destruct (last_listing a c) as [r|].
  - intros [= ->]. destruct IH; auto.
  - destruct (lists_attribute a x) eqn:E; [|discriminate].
    intros [= ->]. auto.
Qed.

(** The first loop skips what the classifier rejects. *)
Lemma build_families_filter c :
  build_families (filter classifiable c) = build_families c.
Proof.
  unfold build_families. generalize (@nil (string * Family)).
  induction c as [|[v inf] c IH]; intros acc; simpl; auto.
  unfold classifiable at 1. simpl.
  destruct (VAR_RE_match v) eqn:E; simpl.
  - apply IH.
  - rewrite IH. unfold add_variable. now rewrite E.
Qed.

Lemma add_attributes_unclassifiable fams acc v inf :
  VAR_RE_match v = None -> add_attributes fams acc v inf = acc.
Proof.
  intros E. unfold add_attributes. rewrite E.
  induction (attribute_codes (i_attributes inf)); simpl; auto.
Qed.

Lemma build_by_attribute_filter fams c :
  build_by_attribute fams (filter classifiable c) = build_by_attribute fams c.
Proof.
  unfold build_by_attribute. generalize (@nil (string * option Family)).
  induction c as [|[v inf] c IH]; intros acc; simpl; auto.
  unfold classifiable at 1. simpl.
  destruct (VAR_RE_match v) eqn:E; simpl.
  - apply IH.
  - rewrite IH. now rewrite add_attributes_unclassifiable.
Qed.

End IndexFacts.

(** ** Trees of dicts and the fields of the object *)

Module ObjectFacts.
Import CensusProfileTree AggregatorSpec AggregatorFacts DictFacts TreeSpec.
Import TreeFacts InitFacts IndexSpec IndexFacts Grammar ClassifierFacts.

Lemma init_fields c obj :
  __init__ c = Ok obj ->
  _raw obj = c /\
  _families obj = build_families c /\
  build_tree (VDict []) (build_families c) = Ok (_tree obj) /\
  build_by_group (build_families c) [] = Ok (_by_group obj) /\
  _by_attribute obj = build_by_attribute (build_families c) c.
Proof.
  unfold __init__. destruct (build_tree _ _) as [tree|]; [|discriminate].
  simpl. destruct (build_by_group _ _); [|discriminate].
  simpl. intros [= <-]. auto.
Qed.

Lemma families_base_truthy c b fam :
  In (b, fam) (build_families c) -> PyStr.truthy b = true.
Proof.
  intros I. apply families_get in I.
  pose proof (proj2 (build_families_spec c) b) as S. rewrite I in S.
  destruct S as (vi & F & _). apply find_some in F as [_ F].
  unfold has_base in F. destruct (VAR_RE_match (fst vi)); [|discriminate].
  apply String.eqb_eq in F. rewrite <- F. unfold base_of.
  now destruct (p_group p).
Qed.

Lemma or_else_truthy x y :
  PyStr.truthy y = true -> PyStr.truthy (or_else x y) = true.
Proof.
  intros T. unfold or_else. destruct x as [s|]; auto.
  destruct (PyStr.truthy s) eqn:E; auto.
Qed.

(** A path has a token, and no token is empty. *)
Lemma label_path_tokens b fam path :
  PyStr.truthy b = true -> label_path b fam = Ok path ->
  path <> [] /\ forall t, In t path -> PyStr.truthy t = true.
Proof.
  intros T. unfold label_path. destruct (fmeta fam) as [m|]; [|discriminate].
  set (toks := map PyStr.strip _).
  assert (Ht : forall t, In t toks -> PyStr.truthy t = true).
  { intros t I. apply in_map_iff in I as (p & <- & I).
    now apply filter_In in I as [_ I]. }
  assert (Hd : forall l, (forall t, In t l -> PyStr.truthy t = true) ->
               match l with
               | [] => Ok [or_else (concept m) (or_else (group m) b)]
               | _ :: _ => Ok l
               end = Ok path ->
               path <> [] /\ forall t, In t path -> PyStr.truthy t = true).
  { intros l Hl H. destruct l as [|t l]; inversion H; subst.
    - split; [discriminate|]. intros t [<-|[]].
      now apply or_else_truthy, or_else_truthy.
    - split; [discriminate | exact Hl]. }
  destruct toks as [|t rest]; [exact (Hd [] Ht)|].
  destruct (_ || _); [apply (Hd rest) | apply (Hd (t :: rest)); exact Ht].
  intros t' I. apply Ht. now right.
Qed.

Lemma set_not_empty V k (v : V) d : Dict.set k v d <> [].
Proof.
  destruct d as [|[k' v'] d]; simpl; [discriminate|].
  destruct (String.eqb k k'); discriminate.
Qed.

Lemma insert_at_not_empty node p b v node' :
  insert_at node p b v = Ok node' -> exists d, node' = VDict d /\ d <> [].
Proof.
  destruct node as [| |d]; try (destruct p; discriminate).
  destruct p as [|t p]; simpl.
  - destruct (Dict.get FAMILIES d) as [[| |bag]|]; try discriminate;
      intros [= <-]; eexists; (split; [reflexivity | apply set_not_empty]).
  - destruct (insert_at _ p b v); simpl; [|discriminate].
    intros [= <-]; eexists; (split; [reflexivity | apply set_not_empty]).
Qed.

Lemma insert_at_dict_tree p : forall node b v node',
    dict_tree node -> insert_at node p b v = Ok node' -> dict_tree node'.
Proof.
  induction p as [|t p IH]; intros node b v node' D H;
    inversion D as [d Hc Hb]; subst; simpl in H.
  - assert (forall x, x <> [] ->
                      dict_tree (VDict (Dict.set FAMILIES (VDict x) d))).
    { intros x Hx. constructor.
      - intros k v' I N. apply In_set in I as [[-> _]|I]; [congruence|eauto].
      - intros v' I. apply In_set in I as [[_ ->]|I]; eauto. }
    destruct (Dict.get FAMILIES d) as [[| |bag]|]; inversion H; subst;
      apply H0; [apply set_not_empty | discriminate].
  - destruct (insert_at _ p b v) as [c'|] eqn:E; simpl in H; [|discriminate].
    inversion H; subst. constructor.
    + intros k v' I N. apply In_set in I as [[-> ->]|I]; [|eauto].
      eapply IH; [|exact E].
      destruct (Dict.get t d) as [c|] eqn:G.
      * apply (Hc _ _ (get_In _ _ G) N).
      * constructor; [intros ? ? [] | intros ? []].
    + intros v' I. apply In_set in I as [[<- ->]|I]; [|eauto].
      eapply insert_at_not_empty; eauto.
Qed.

Lemma build_tree_dict_tree l : forall root tree,
    dict_tree root -> build_tree root l = Ok tree -> dict_tree tree.
Proof.
  induction l as [|[b fam] l IH]; intros root tree D H; simpl in H.
  - now inversion H; subst.
  - unfold add_family in H.
    destruct (label_path b fam) as [path|]; [|discriminate]. simpl in H.
    destruct (insert_at root path b _) as [root1|] eqn:E; [|discriminate].
    simpl in H. eapply IH; [|exact H]. eapply insert_at_dict_tree; eauto.
Qed.

Lemma init_dict_tree c obj : __init__ c = Ok obj -> dict_tree (_tree obj).
Proof.
  intros H. apply init_fields in H as (_ & _ & T & _).
  eapply build_tree_dict_tree; [|exact T].
  constructor; [intros ? ? [] | intros ? []].
Qed.

Lemma walk_dict_tree p : forall node,
    dict_tree node -> ~ In FAMILIES p ->
    exists n, walk node p = Ok n /\ (n = VNone \/ dict_tree n).
Proof.
  induction p as [|t p IH]; intros node D N; simpl.
  - eauto.
  - inversion D as [d Hc Hb]; subst.
    destruct (Dict.get t d) as [c|] eqn:G; [|eauto].
    assert (Dc : dict_tree c).
    { apply (Hc _ _ (get_In _ _ G)). intros ->. apply N. now left. }
    inversion Dc; subst. apply IH; auto. intros I. apply N. now right.
Qed.

(** A walk along a path goes through a dict at each prefix. *)
Lemma walk_app p : forall node q d,
    walk node (p ++ q) = Ok (VDict d) ->
    exists d', walk node p = Ok (VDict d') /\ walk (VDict d') q = Ok (VDict d).
Proof.
  induction p as [|t p IH]; intros node q d W.
  - simpl in *. destruct node as [| |d'].
    + destruct q; discriminate.
    + destruct q; discriminate.
    + eauto.
  - simpl in *. destruct node as [| |dn]; try discriminate.
    destruct (Dict.get t dn) as [[| |dc]|]; try discriminate; eauto.
Qed.

(** A member of a family is under a measure name of the map of suffixes,
    and its variable is classified with the base of the family and that
    measure name. *)
Lemma members_classified c b fam measure mem :
  Dict.get b (build_families c) = Some fam ->
  In (measure, mem) (members fam) ->
  In measure (map snd _SUFFIX_MAP) /\
  exists p, VAR_RE_match (var mem) = Some p /\
            base_of p = b /\ measure_of p = measure.
Proof.
  intros G I. pose proof (proj2 (build_families_spec c) b) as S.
  rewrite G in S. destruct S as (vi & F & _ & ND & L).
  apply In_get in I; [|exact ND]. rewrite L in I.
  destruct (last_of b measure c) as [vj|] eqn:E; [|discriminate].
  inversion I; subst mem. simpl.
  apply last_of_Some in E as [_ E]. unfold has_measure in E.
  destruct (VAR_RE_match (fst vj)) as [p|] eqn:Ev; [|discriminate].
  apply andb_true_iff in E as [Eb Em].
  apply String.eqb_eq in Eb, Em. split; [|eauto].
  assert (X : In (p_suffix p) suffixes).
  { apply VAR_RE_match_sound in Ev as [P|(? & _ & P)]; apply P. }
  rewrite <- Em. unfold measure_of. simpl in X.
  repeat (destruct X as [<-|X]; [simpl; tauto|]). contradiction.
Qed.

End ObjectFacts.

(** ** Paths given as one string *)

Module StringPathFacts.
Import CensusProfileTree IndexSpec.

Lemma split_go_slash c cur s :
  PyStr.split_go "/" 0 cur (String c s)
  = if Ascii.eqb slash c
    then cur :: PyStr.split_go "/" 0 EmptyString s
    else PyStr.split_go "/" 0 (cur ++ String c EmptyString) s.
Proof.
  unfold slash. cbn [PyStr.split_go prefix].
  destruct (ascii_dec "/" c) as [<-|N].
  - destruct s; reflexivity.
  - destruct (Ascii.eqb_spec "/" c); [congruence|reflexivity].
Qed.

Lemma free_of_app c a b :
  free_of c (a ++ b) = free_of c a && free_of c b.
Proof.
  induction a as [|x a IH]; simpl; auto. now rewrite IH, andb_assoc.
Qed.

Lemma append_assoc (a b c : string) : ((a ++ b) ++ c = a ++ (b ++ c))%string.
Proof. induction a as [|x a IH]; simpl; congruence. Qed.

Lemma append_nil_r (a : string) : (a ++ EmptyString)%string = a.
Proof. induction a as [|x a IH]; simpl; congruence. Qed.

(** No piece of a split on the slash has a slash. *)
Lemma split_go_free s : forall cur t,
    free_of slash cur = true ->
    In t (PyStr.split_go "/" 0 cur s) -> free_of slash t = true.
Proof.
  induction s as [|c s IH]; intros cur t F I.
  - destruct I as [<-|[]]. exact F.
  - rewrite split_go_slash in I. destruct (Ascii.eqb slash c) eqn:E.
    + destruct I as [<-|I]; [exact F|]. now apply (IH EmptyString).
    + apply (IH _ t) in I; auto. rewrite free_of_app, F.
      cbn [free_of]. now rewrite E.
Qed.

(** A piece without a slash is read as a whole. *)
Lemma split_go_piece a : forall cur rest,
    free_of slash a = true ->
    PyStr.split_go "/" 0 cur (a ++ rest)
    = PyStr.split_go "/" 0 (cur ++ a) rest.
Proof.
  induction a as [|c a IH]; intros cur rest F; simpl append.
  - now rewrite append_nil_r.
  - cbn [free_of] in F. apply andb_true_iff in F as [N F].
    rewrite split_go_slash. apply negb_true_iff in N. rewrite N.
    rewrite IH by exact F. now rewrite append_assoc.
Qed.

Lemma split_join toks : forall cur,
    toks <> [] ->
    (forall t, In t toks -> free_of slash t = true) ->
    match toks with
    | [] => True
    | t :: rest =>
        PyStr.split_go "/" 0 cur (join "/" toks) = (cur ++ t)%string :: rest
    end.
Proof.
  induction toks as [|t toks IH]; intros cur N F; [congruence|].
  destruct toks as [|t' toks].
  - simpl join. rewrite <- (append_nil_r t) at 1.
    rewrite split_go_piece by (apply F; now left). reflexivity.
  - change (join "/" (t :: t' :: toks))
      with (t ++ String slash (join "/" (t' :: toks)))%string.
    rewrite split_go_piece by (apply F; now left).
    rewrite split_go_slash. unfold slash at 1. rewrite Ascii.eqb_refl.
    f_equal. apply (IH EmptyString); [discriminate|].
    intros x I. apply F. now right.
Qed.

Lemma filter_all A (f : A -> bool) l :
  (forall x, In x l -> f x = true) -> filter f l = l.
Proof.
  induction l as [|x l IH]; intros H; simpl; auto.
  rewrite (H x) by now left. f_equal. apply IH. intros; apply H. now right.
Qed.

Lemma tokens_join toks :
  (forall t, In t toks -> PyStr.truthy t = true /\ free_of slash t = true) ->
  tokens (PathStr (join "/" toks)) = toks.
Proof.
  intros H. unfold tokens, PyStr.split. destruct toks as [|t toks].
  - reflexivity.
  - pose proof (@split_join (t :: toks) EmptyString) as S.
    cbv beta iota in S.
    rewrite S; [|discriminate|intros; now apply H].
    apply filter_all. intros x I. now apply H.
Qed.

End StringPathFacts.

(** ** Induction on values *)

Module ValueFacts.

(** Induction on a value, with the hypothesis for every entry of a dict. *)
Lemma value_dict_ind (P : value -> Prop) :
  P VNone -> (forall s, P (VStr s)) ->
  (forall d, (forall k v, In (k, v) d -> P v) -> P (VDict d)) ->
  forall v, P v.
Proof.
  intros HN HS HD. fix IH 1. intros [|s|d].
  - exact HN.
  - apply HS.
  - apply HD. induction d as [|[k v] d IHd]; intros k' v' I.
    + destruct I.
    + pose proof (IH v) as Pv. clear IH.
      destruct I as [E|I]; [inversion E; subst; exact Pv | eapply IHd; eauto].
Qed.

End ValueFacts.

(** ** The shape of the XML document *)

Module XmlShapeFacts.
Import CensusProfileTree DictFacts XmlSpec XmlFacts XmlShape ValueFacts.

Lemma all_tags_eq tag attrib text children :
  all_tags (Element tag attrib text children)
  = tag :: flat_map all_tags children.
Proof.
  reflexivity.
Qed.

Lemma ascending_insert V (kv : string * V) l :
  ascending (Dict.keys l) = true ->
  ascending (Dict.keys (Dict.insert_sorted kv l)) = true.
Proof.
  induction l as [|kv' l IH]; intros A; [reflexivity|].
  cbn [Dict.insert_sorted].
  destruct (String.leb (fst kv) (fst kv')) eqn:E.
  - cbn [Dict.keys map ascending] in *. now rewrite E.
  - assert (E' : String.leb (fst kv') (fst kv) = true).
    { destruct (String.leb_total (fst kv) (fst kv')); congruence. }
    destruct l as [|kv'' l].
    + cbn. now rewrite E'.
    + assert (A' : ascending (Dict.keys (kv'' :: l)) = true).
      { cbn [Dict.keys map ascending] in A.
        now apply andb_true_iff in A as [_ A]. }
      specialize (IH A'). cbn [Dict.insert_sorted] in *.
      cbn [Dict.keys map ascending] in A.
      apply andb_true_iff in A as [A1 A2].
      destruct (String.leb (fst kv) (fst kv'')).
      * cbn [Dict.keys map ascending] in *. now rewrite E'.
      * cbn [Dict.keys map ascending] in *. now rewrite A1.
Qed.

Lemma ascending_sorted V (d : list (string * V)) :
  ascending (Dict.keys (Dict.sorted d)) = true.
Proof.
  induction d as [|kv d IH]; [reflexivity|].
  apply ascending_insert, IH.
Qed.

Lemma keys_kids_of rd il ia d :
  Dict.keys (kids_of rd il ia d) = label_keys d.
Proof.
  unfold kids_of, label_keys, Dict.keys.
  induction d as [|[k v] d IH]; simpl; auto.
  destruct (String.eqb k FAMILIES); simpl; congruence.
Qed.

Section Shape.

Variable repr_dict : list (string * value) -> string.
Variables include_labels include_attributes : bool.

Local Abbreviation allowed := (schema include_labels include_attributes).
Local Abbreviation append_node_xml :=
  (_append_node_xml repr_dict include_labels include_attributes).

Lemma allowed_fixed t :
  In t ["Node"; "Family"; "Member"] -> In t allowed.
Proof. intros I. unfold schema. apply in_or_app. now left. Qed.

Lemma allowed_labels t :
  include_labels = true -> In t ["FamilyLabel"; "Label"] -> In t allowed.
Proof.
  intros -> I. unfold schema. apply in_or_app. right.
  apply in_or_app. now left.
Qed.

Lemma allowed_attributes t :
  include_attributes = true -> In t ["Attributes"; "Attr"] -> In t allowed.
Proof.
  intros -> I. unfold schema. apply in_or_app. right.
  apply in_or_app. now right.
Qed.

Lemma attr_tags l t :
  In t (flat_map all_tags
          (map (fun x => Element "Attr" [] (Some (VStr x)) []) l)) ->
  t = "Attr".
Proof.
  induction l as [|x l IH]; simpl; [tauto|]. intros [<-|I]; auto.
Qed.

Lemma member_xml_tags measure minfo e :
  member_xml repr_dict include_labels include_attributes measure minfo = Ok e ->
  tag_of e = "Member" /\ incl (all_tags e) allowed.
Proof.
  unfold member_xml. destruct minfo as [| |md]; try discriminate.
  set (lbl := if include_labels && _ then _ else _).
  assert (Hl : forall t, In t (flat_map all_tags lbl) -> In t allowed).
  { subst lbl. destruct (include_labels && _) eqn:E; [|intros ? []].
    apply andb_true_iff in E as [E _]. intros t [<-|[]].
    apply allowed_labels; simpl; auto. }
  clearbody lbl.
  destruct (include_attributes && _) eqn:E.
  - apply andb_true_iff in E as [E _].
    destruct (get_default "attributes" VNone md) as [|a|]; try discriminate.
    simpl. intros [= <-]. split; [reflexivity|]. rewrite all_tags_eq.
    intros t [<-|I]; [apply allowed_fixed; simpl; auto|].
    rewrite flat_map_app in I. apply in_app_or in I as [I|I]; auto.
    simpl in I. rewrite app_nil_r in I. destruct I as [<-|I].
    + apply allowed_attributes; simpl; auto.
    + apply attr_tags in I as ->. apply allowed_attributes; simpl; auto.
  - simpl. intros [= <-]. split; [reflexivity|]. rewrite all_tags_eq.
    intros t [<-|I]; [apply allowed_fixed; simpl; auto|].
    rewrite app_nil_r in I. auto.
Qed.

Lemma family_xml_tags b fam e :
  family_xml repr_dict include_labels include_attributes b fam = Ok e ->
  tag_of e = "Family" /\ incl (all_tags e) allowed.
Proof.
  unfold family_xml. destruct fam as [| |fd]; try discriminate.
  destruct (get_default "meta" (VDict []) fd) as [| |md]; try discriminate.
  destruct (get_default "members" (VDict []) fd) as [| |ms]; try discriminate.
  destruct (sequence _) as [mems|] eqn:S; [|discriminate].
  simpl. intros [= <-]. split; [reflexivity|]. rewrite all_tags_eq.
  intros t [<-|I]; [apply allowed_fixed; simpl; auto|].
  rewrite flat_map_app in I. apply in_app_or in I as [I|I].
  - assert (E : include_labels = true)
      by (destruct include_labels; [reflexivity | destruct I]).
    rewrite E in I. destruct I as [<-|[]].
    apply allowed_labels; simpl; auto.
  - apply in_flat_map in I as (m & Im & It).
    apply sequence_Forall2 in S.
    destruct (@Forall2_In_r _ _ _ _ _ _ S Im) as (x & Ix & Hx).
    apply in_map_iff in Ix as (km & <- & _).
    now apply member_xml_tags in Hx as [_ Hx]; apply Hx.
Qed.

Lemma families_xml_tags d els :
  families_xml repr_dict include_labels include_attributes
               (Dict.get FAMILIES d) = Ok els ->
  List.length els = bag_size d /\
  forall e, In e els -> tag_of e = "Family" /\ incl (all_tags e) allowed.
Proof.
  unfold families_xml, bag_size.
  destruct (Dict.get FAMILIES d) as [v|]; [|intros [= <-]; split; [auto|intros ? []]].
  destruct v as [|s|bag]; simpl.
  - intros [= <-]; split; [auto|intros ? []].
  - destruct s; [intros [= <-]; split; [auto|intros ? []] | discriminate].
  - destruct bag as [|kv bag]; [intros [= <-]; split; [auto|intros ? []]|].
    simpl negb. cbv iota. intros S. apply sequence_Forall2 in S. split.
    + apply Forall2_length in S. rewrite <- S, length_map.
      apply Permutation_length, sorted_perm.
    + intros e I. destruct (@Forall2_In_r _ _ _ _ _ _ S I) as (x & Ix & Hx).
      apply in_map_iff in Ix as (bf & <- & _).
      now apply family_xml_tags in Hx.
Qed.

Lemma node_element_tags kr e :
  node_element kr = Ok e ->
  exists els, snd kr = Ok els /\
              e = Element "Node" [("name", VStr (fst kr))] None els.
Proof.
  unfold node_element. destruct (snd kr) as [els|]; [|discriminate].
  simpl. intros [= <-]. eauto.
Qed.

Lemma append_node_tags : forall node els,
    append_node_xml node = Ok els ->
    forall e, In e els -> incl (all_tags e) allowed.
Proof.
  induction node as [| s |d IH] using value_dict_ind; intros els H;
    try discriminate.
  rewrite append_node_xml_eq in H.
  destruct (sequence _) as [nodes|] eqn:S; [|discriminate]. simpl in H.
  destruct (families_xml _ _ _ _) as [fels|] eqn:F; [|discriminate].
  simpl in H. inversion H; subst els; clear H.
  intros e I. apply in_app_or in I as [I|I].
  - apply sequence_Forall2 in S.
    destruct (@Forall2_In_r _ _ _ _ _ _ S I) as (x & Ix & Hx).
    apply in_map_iff in Ix as (kr & <- & Ik).
    apply node_element_tags in Hx as (els & Hs & ->).
    apply (proj1 (sorted_In _ _)) in Ik. unfold kids_of in Ik.
    apply in_map_iff in Ik as ([k v] & <- & Ikv).
    apply filter_In in Ikv as [Ikv _]. simpl in Hs.
    rewrite all_tags_eq. intros t [<-|It]; [apply allowed_fixed; simpl; auto|].
    apply in_flat_map in It as (c & Ic & It).
    destruct v as [| |d']; inversion Hs; subst; try contradiction.
    eapply (IH k (VDict d') Ikv); eauto.
  - apply families_xml_tags in F as [_ F]. now apply F.
Qed.

Lemma append_node_order d els :
  append_node_xml (VDict d) = Ok els ->
  exists ks nodes fams,
    els = nodes ++ fams /\
    Permutation ks (label_keys d) /\ ascending ks = true /\
    map (fun e => (tag_of e, attr "name" e)) nodes
    = map (fun k => ("Node", Some (VStr k))) ks /\
    List.length fams = bag_size d /\
    forall e, In e fams -> tag_of e = "Family".
Proof.
  intros H. rewrite append_node_xml_eq in H.
  destruct (sequence _) as [nodes|] eqn:S; [|discriminate]. simpl in H.
  destruct (families_xml _ _ _ _) as [fels|] eqn:F; [|discriminate].
  simpl in H. inversion H; subst els; clear H.
  exists (Dict.keys (Dict.sorted
                       (kids_of repr_dict include_labels include_attributes d))),
    nodes, fels.
  split; [reflexivity|]. split.
  { rewrite <- (keys_kids_of repr_dict include_labels include_attributes).
    apply Permutation_map, sorted_perm. }
  split; [apply ascending_sorted|]. split.
  { apply sequence_Forall2 in S. revert S.
    generalize (Dict.sorted
                  (kids_of repr_dict include_labels include_attributes d)).
    intros l. revert nodes. induction l as [|kr l IHl]; intros nodes S;
      inversion S as [|? e ? r He Hr]; subst; [reflexivity|].
    apply node_element_tags in He as (els & _ & ->). simpl.
    f_equal. now apply IHl. }
  apply families_xml_tags in F as [L F]. split; [exact L|].
  intros e I. now apply F.
Qed.

End Shape.

End XmlShapeFacts.

(** ** The pretty-printer *)

Module PrinterFacts.
Import CensusProfileTree DictFacts IndexSpec ObjectFacts Printer PrinterSpec.
Import ValueFacts.

(** The source's order: filter, slice, then print each child. *)
Lemma pprint_entry_eq m depth k d :
  pprint_entry m depth k (VDict d)
  = (times "  " depth ++ "- " ++ k)%string
    :: List.concat
         (map (fun kv => pprint_entry m (depth + 1) (fst kv) (snd kv))
              (slice_to m (label_entries d)))
    ++ (if (m <? Z.of_nat (List.length (label_entries d)))%Z
        then [(times "  " (depth + 1) ++ "... (+"
               ++ dec (Z.of_nat (List.length (label_entries d)) - m)
               ++ " more)")%string]
        else []).
Proof.
  cbn [pprint_entry].
  match goal with
  | |- context [slice_to m ?g] =>
      replace g with (map (fun kv => pprint_entry m (depth + 1)
                                                  (fst kv) (snd kv))
                          (label_entries d))
  end.
  - unfold slice_to. rewrite length_map, firstn_map. reflexivity.
  - unfold label_entries.
    induction d as [|[kk vv] d IH]; simpl; auto.
    destruct (String.eqb kk FAMILIES); simpl; congruence.
Qed.

(** The recursive call of the source, [pprint({kk: vv}, ...)]. *)
Lemma pprint_single self m depth kk vv :
  kk <> FAMILIES ->
  pprint self (VDict [(kk, vv)]) depth m = (pprint_entry m depth kk vv, None).
Proof.
  intros N. apply String.eqb_neq in N. unfold pprint. cbn [pprint_items].
  rewrite N. simpl. now rewrite app_nil_r.
Qed.

Lemma labels_only_eq d :
  labels_only (VDict d)
  = VDict (map (fun kv => (fst kv, labels_only (snd kv))) (label_entries d)).
Proof.
  cbn [labels_only]. f_equal. unfold label_entries.
  induction d as [|[k x] d IH]; simpl; auto.
  destruct (String.eqb k FAMILIES); simpl; congruence.
Qed.

Lemma label_entries_labels_only d :
  label_entries (map (fun kv => (fst kv, labels_only (snd kv)))
                     (label_entries d))
  = map (fun kv => (fst kv, labels_only (snd kv))) (label_entries d).
Proof.
  unfold label_entries. induction d as [|[k x] d IH]; simpl; auto.
  destruct (String.eqb k FAMILIES) eqn:E; simpl; auto.
  rewrite E. simpl. congruence.
Qed.

Lemma slice_to_map A B (f : A -> B) m l :
  slice_to m (map f l) = map f (slice_to m l).
Proof. unfold slice_to. now rewrite length_map, firstn_map. Qed.

Lemma slice_to_incl A m (l : list A) x : In x (slice_to m l) -> In x l.
Proof.
  unfold slice_to. intros I.
  match type of I with
  | In _ (firstn ?n _) => rewrite <- (firstn_skipn n l)
  end.
  apply in_or_app. now left.
Qed.

(** The printer does not look into a bag below an entry. *)
Lemma pprint_entry_labels_only m : forall v depth k,
    pprint_entry m depth k (labels_only v) = pprint_entry m depth k v.
Proof.
  induction v as [| s |d IH] using value_dict_ind; intros depth k;
    try reflexivity.
  rewrite labels_only_eq, !pprint_entry_eq, label_entries_labels_only.
  rewrite slice_to_map, map_map, length_map. f_equal. f_equal. f_equal.
  apply map_ext_in. intros [kk vv] I. simpl.
  apply slice_to_incl in I. apply filter_In in I as [I _].
  apply (IH kk vv I).
Qed.

Lemma pprint_items_labels_only m depth d :
  Dict.get FAMILIES d = None ->
  pprint_items m depth (map (fun kv => (fst kv, labels_only (snd kv)))
                            (label_entries d))
  = pprint_items m depth d.
Proof.
  unfold label_entries. induction d as [|[k x] d IH]; [reflexivity|].
  intros G. cbn [Dict.get] in G. rewrite String.eqb_sym in G.
  cbn [filter fst]. destruct (String.eqb k FAMILIES) eqn:E; [discriminate|].
  cbn [negb map pprint_items fst snd]. rewrite E.
  now rewrite pprint_entry_labels_only, (IH G).
Qed.

(** The loop ends without an exception when the reserved key holds a
    dict. *)
Lemma pprint_items_returns m depth d :
  (forall v, In (FAMILIES, v) d -> exists bag, v = VDict bag) ->
  snd (pprint_items m depth d) = None.
Proof.
  induction d as [|[k x] d IH]; intros H; simpl; auto.
  assert (IH' := IH (fun v I => H v (or_intror I))).
  destruct (String.eqb_spec k FAMILIES) as [->|N]; simpl; auto.
  destruct (H x (or_introl eq_refl)) as (bag & ->). simpl. exact IH'.
Qed.

(** Every label key of the node has its line when the loop is not ended
    by an exception. *)
Lemma pprint_items_lines m depth d k v :
  snd (pprint_items m depth d) = None ->
  In (k, v) d -> k <> FAMILIES ->
  In (times "  " depth ++ "- " ++ k)%string (fst (pprint_items m depth d)).
Proof.
  induction d as [|[k' x] d IH]; intros S I N; [destruct I|].
  simpl in *. destruct (String.eqb_spec k' FAMILIES) as [->|N'].
  - destruct (py_len x) as [n|]; [|discriminate]. simpl in *.
    destruct I as [E|I]; [congruence|]. right. now apply IH.
  - simpl in *. apply in_or_app. destruct I as [E|I].
    + inversion E; subst. left. destruct v; now left.
    + right. now apply IH.
Qed.

End PrinterFacts.

(** * Further properties of the code *)

Section Extras.
Import CensusProfileTree AggregatorSpec AggregatorFacts DictFacts TreeSpec.
Import TreeFacts InitFacts IndexSpec IndexFacts ObjectFacts Grammar.
Import ClassifierFacts Scenario Scenario2 XmlSpec StringPathFacts.
Import XmlShape XmlShapeFacts Printer PrinterSpec PrinterFacts.

(** X1.  On the strings of the model, those of code points below 256: the
    classifier returns parts for a string exactly when the string, or the
    string without one newline at its end, is group, underscore, four-digit
    line and suffix of the grammar; the parts are those of that code, so at
    most one result is possible.  (Beyond that range [\d] matches other
    decimal digits too.) *)
Theorem classifier_language s p :
  VAR_RE_match s = Some p <->
  parses s p \/ exists s', s = (s' ++ NL)%string /\ parses s' p.
Proof.
  split; [apply VAR_RE_match_sound|].
  intros [P|(s' & -> & P)].
  - rewrite <- (append_empty s).
    apply (@VAR_RE_match_complete _ _ _ P). now left.
  - apply (@VAR_RE_match_complete _ _ _ P). now right.
Qed.

(** X2.  Every family of a catalog has between one and eight members; the
    key of a member is one of the measure names of [_SUFFIX_MAP], and the
    variable of the member is classified with the base of the family and
    that measure name. *)
Theorem family_members c b fam :
  Dict.get b (build_families c) = Some fam ->
  1 <= List.length (members fam) <= 8 /\
  forall measure mem,
    In (measure, mem) (members fam) ->
    In measure (map snd _SUFFIX_MAP) /\
    exists p, VAR_RE_match (var mem) = Some p /\
              base_of p = b /\ measure_of p = measure.
Proof.
  intros G. pose proof (proj2 (build_families_spec c) b) as S.
  rewrite G in S. destruct S as (vi & F & _ & ND & L).
  pose proof (fun measure mem =>
                @members_classified c b fam measure mem G) as Hm.
  split; [|exact Hm]. split.
  - apply find_some in F as [I F]. unfold has_base in F.
    destruct (VAR_RE_match (fst vi)) as [p|] eqn:Ev; [|discriminate].
    assert (N : last_of b (measure_of p) c <> None).
    { apply (@last_of_In _ _ _ vi I). unfold has_measure.
      now rewrite Ev, F, String.eqb_refl. }
    specialize (L (measure_of p)).
    destruct (members fam); [|simpl; lia].
    destruct (last_of b (measure_of p) c); [discriminate L|congruence].
  - replace (List.length (members fam)) with (List.length (Dict.keys (members fam)))
      by apply length_map.
    change 8 with (List.length (map snd _SUFFIX_MAP)).
    apply NoDup_incl_length; auto.
    intros k I. apply in_map_iff in I as ([k' mem] & <- & I).
    now apply Hm in I.
Qed.

Lemma family_members_witness :
  1 <= List.length (members arab_family) <= 8.
Proof.
  apply (@family_members arab_catalog "DP02_0126" arab_family).
  reflexivity.
Defined.

(** X3.  Variables that the classifier rejects leave no trace: the catalog
    without them builds an object with the same families, tree, group index
    and attribute index. *)
Theorem unclassifiable_excluded c obj :
  __init__ c = Ok obj ->
  exists obj',
    __init__ (filter classifiable c) = Ok obj' /\
    _families obj' = _families obj /\
    _tree obj' = _tree obj /\
    _by_group obj' = _by_group obj /\
    _by_attribute obj' = _by_attribute obj.
Proof.
  intros H. apply init_fields in H as (_ & Hf & Ht & Hg & Ha).
  unfold __init__. rewrite build_families_filter, Ht. simpl.
  rewrite Hg. simpl. eexists. split; [reflexivity|]. simpl.
  rewrite build_by_attribute_filter. auto.
Qed.

Lemma unclassifiable_excluded_witness :
  exists obj',
    __init__ (filter classifiable arab_catalog) = Ok obj' /\
    _families obj' = _families arab_object /\
    _tree obj' = _tree arab_object /\
    _by_group obj' = _by_group arab_object /\
    _by_attribute obj' = _by_attribute arab_object.
Proof. exact (@unclassifiable_excluded arab_catalog arab_object init_arab). Defined.



(** X5.  [by_attribute] returns the family of the last classifiable
    variable of the catalog that lists the attribute code, and [None] when
    no classifiable variable lists it. *)
Theorem by_attribute_owner c obj a :
  __init__ c = Ok obj ->
  match last_listing a c with
  | None => by_attribute obj a = None
  | Some vi => exists fam, by_attribute obj a = Some fam /\
                           family obj (fst vi) = Some fam
  end.
Proof.
  intros H. apply init_fields in H as (_ & Hf & _ & _ & Ha).
  unfold by_attribute, family. rewrite Ha, Hf, build_by_attribute_spec.
  destruct (last_listing a c) as [[v inf]|] eqn:E; [|reflexivity].
  simpl. apply last_listing_Some in E as [I E].
  destruct (VAR_RE_match v) as [p|] eqn:Ev.
  - pose proof (proj2 (build_families_spec c) (base_of p)) as S.
    destruct (Dict.get (base_of p) (build_families c)) as [fam|]; eauto.
    simpl in S. apply (find_none _ _ S) in I. unfold has_base in I.
    simpl in I. rewrite Ev, String.eqb_refl in I. discriminate.
  - unfold lists_attribute, classifiable in E. simpl in E.
    rewrite Ev in E. discriminate.
Qed.

Lemma by_attribute_owner_witness :
  (exists fam, by_attribute arab_object "DP02_0126EA" = Some fam /\
               family arab_object "DP02_0126E" = Some fam) /\
  by_attribute arab_object "DP05_0050PMA" = None.
Proof.
  split.
  - exact (@by_attribute_owner arab_catalog arab_object "DP02_0126EA"
             init_arab).
  - exact (@by_attribute_owner arab_catalog arab_object "DP05_0050PMA"
             init_arab).
Defined.

(** X6.  [__init__] does not raise on a catalog in which no family's path
    has the reserved key among its tokens. *)
Theorem construction_succeeds c :
  reserved_free (build_families c) = true ->
  exists obj, __init__ c = Ok obj /\ _raw obj = c /\
              _families obj = build_families c.
Proof.
  intros R. destruct (@init_ok _ R) as (obj & H). exists obj.
  split; [exact H|]. apply init_fields in H. tauto.
Qed.

Lemma construction_succeeds_witness :
  exists obj, __init__ moe_first_catalog = Ok obj /\
              _raw obj = moe_first_catalog /\
              _families obj = build_families moe_first_catalog.
Proof. apply construction_succeeds. reflexivity. Defined.

(** X7.  The path of a family of a catalog has at least one token and no
    empty token; so, when no path has the reserved key, the root of the
    tree has no reserved key and [families_at] returns the empty dict at
    the empty path. *)
Theorem paths_not_empty c obj :
  __init__ c = Ok obj ->
  (forall b fam path,
      Dict.get b (_families obj) = Some fam ->
      label_path b fam = Ok path ->
      path <> [] /\ forall t, In t path -> PyStr.truthy t = true) /\
  (reserved_free (_families obj) = true ->
   Dict.get FAMILIES (entries (_tree obj)) = None /\
   families_at obj (PathList []) = Ok (VDict [])).
Proof.
  intros Hi. destruct (@init_inv _ _ Hi) as [Hf _].
  split.
  - intros b fam path G Hl. apply get_In in G. rewrite Hf in G.
    apply (@label_path_tokens _ _ _ (@families_base_truthy _ _ _ G) Hl).
  - intros R. destruct (@init_tree _ _ Hi R) as [OK _].
    pose proof (@init_dict_tree _ _ Hi) as D.
    unfold families_at, subtree. simpl.
    destruct (_tree obj) as [| |d]; inversion OK as [? ? ND Hc Hb]; subst.
    simpl.
    assert (N : Dict.get FAMILIES d = None).
    { destruct (Dict.get FAMILIES d) as [v|] eqn:G; [exfalso|reflexivity].
      apply get_In in G.
      inversion D as [? _ Hd]; subst.
      destruct (Hd _ G) as (bag & -> & Hne).
      destruct (Hb _ G) as (bag' & E & _ & H). inversion E; subst bag'.
      destruct bag as [|[b x] bag]; [congruence|].
      destruct (H b x (or_introl eq_refl)) as (fam & If & _ & Hl).
      rewrite Hf in If.
      now apply (@label_path_tokens _ _ _ (@families_base_truthy _ _ _ If))
        in Hl. }
    split; [exact N|]. rewrite N. now destruct d.
Qed.

Lemma paths_not_empty_witness :
  Dict.get FAMILIES (entries (_tree arab_object)) = None /\
  families_at arab_object (PathList []) = Ok (VDict []).
Proof.
  apply (proj2 (@paths_not_empty arab_catalog arab_object init_arab)).
  reflexivity.
Defined.

(** X8.  On every constructed object, for a path with no token equal to the
    reserved key, [subtree] returns [None] or a dict and [families_at]
    returns a dict: neither raises. *)
Theorem label_paths_do_not_raise c obj p :
  __init__ c = Ok obj ->
  ~ In FAMILIES (tokens p) ->
  (exists n, subtree obj p = Ok n /\ (n = VNone \/ exists d, n = VDict d)) /\
  exists bag, families_at obj p = Ok (VDict bag).
Proof.
  intros H N. apply init_dict_tree in H.
  destruct (@walk_dict_tree _ _ H N) as (n & W & Hn).
  unfold families_at, subtree. rewrite W. simpl. split.
  - exists n. split; [reflexivity|].
    destruct Hn as [E|D]; [now left|]. right. inversion D. eauto.
  - destruct Hn as [E|D]; [subst n; simpl; eauto|].
    inversion D as [d Hc Hb]; subst.
    destruct d as [|kv d']; [simpl; eauto|]. simpl negb. cbv iota.
    destruct (Dict.get FAMILIES (kv :: d')) as [v|] eqn:G; [|eauto].
    destruct (Hb _ (get_In _ _ G)) as (bag & -> & _). eauto.
Qed.

Lemma label_paths_do_not_raise_witness :
  exists bag, families_at arab_object (PathStr "ANCESTRY/nowhere") = Ok (VDict bag).
Proof.
  apply (@label_paths_do_not_raise arab_catalog arab_object
           (PathStr "ANCESTRY/nowhere") init_arab).
  vm_compute. intros [E|[E|[]]]; discriminate.
Defined.

(** X9.  For an object of a catalog in which no family's path has the
    reserved key: two families with the same path are both in the bag at
    that path, each under its own base. *)
Theorem same_path_coexist c obj b1 fam1 b2 fam2 path :
  __init__ c = Ok obj ->
  reserved_free (_families obj) = true ->
  Dict.get b1 (_families obj) = Some fam1 ->
  Dict.get b2 (_families obj) = Some fam2 ->
  label_path b1 fam1 = Ok path ->
  label_path b2 fam2 = Ok path ->
  exists bag,
    families_at obj (PathList path) = Ok (VDict bag) /\
    Dict.get b1 bag = Some (family_value fam1) /\
    Dict.get b2 bag = Some (family_value fam2).
Proof.
  intros Hi R G1 G2 P1 P2. destruct (@init_tree _ _ Hi R) as [_ Hin].
  destruct (Hin _ _ (get_In _ _ G1)) as (p1 & E1 & L1).
  destruct (Hin _ _ (get_In _ _ G2)) as (p2 & E2 & L2).
  rewrite P1 in E1. rewrite P2 in E2.
  inversion E1; subst p1. inversion E2; subst p2.
  destruct (@bag_lookup_families_at _ _ _ _ L1) as (bag & F & Gb).
  destruct (@bag_lookup_families_at _ _ _ _ L2) as (bag' & F' & Gb').
  rewrite F in F'. inversion F'; subst bag'. eauto.
Qed.

Lemma same_path_coexist_witness :
  exists bag,
    families_at same_label_object (PathList arab_path) = Ok (VDict bag) /\
    Dict.get "DP02_0126" bag = Some (family_value arab_family) /\
    Dict.get "DP02PR_0126" bag = Some (family_value arab_family_pr).
Proof.
  apply (@same_path_coexist same_label_catalog same_label_object
           "DP02_0126" arab_family "DP02PR_0126" arab_family_pr arab_path);
    vm_compute; reflexivity.
Defined.

(** X10.  For an object of a catalog in which no family's path has the
    reserved key (so that the tree builder writes into no family record):
    the family found from the variable code of any of its members is the
    family itself. *)
Theorem member_finds_family c obj b fam measure mem :
  __init__ c = Ok obj ->
  reserved_free (_families obj) = true ->
  Dict.get b (_families obj) = Some fam ->
  In (measure, mem) (members fam) ->
  family obj (var mem) = Some fam.
Proof.
  intros Hi _ G I. destruct (@init_inv _ _ Hi) as [Hf _].
  rewrite Hf in G.
  destruct (@members_classified _ _ _ _ _ G I) as (_ & p & Ev & Eb & _).
  unfold family. rewrite Ev, Eb, Hf. exact G.
Qed.

Lemma member_finds_family_witness :
  family arab_object "DP02_0126E" = Some arab_family.
Proof.
  apply (@member_finds_family arab_catalog arab_object "DP02_0126"
           arab_family "estimate"
           (Member "DP02_0126E" (Some arab_label) (Some "int")
                   (Some "DP02_0126EA,DP02_0126M")) init_arab).
  - reflexivity.
  - reflexivity.
  - simpl. auto.
Defined.

(** X11.  A path given as one string, its tokens joined by slashes, is the
    path given as the list of the tokens, when no token is empty or has a
    slash: [subtree] and [families_at] return the same for both. *)
Theorem string_path_agrees obj toks :
  (forall t, In t toks -> PyStr.truthy t = true /\ free_of slash t = true) ->
  subtree obj (PathStr (join "/" toks)) = subtree obj (PathList toks) /\
  families_at obj (PathStr (join "/" toks))
  = families_at obj (PathList toks).
Proof.
  intros H. unfold families_at, subtree. now rewrite (tokens_join toks H).
Qed.

Lemma string_path_agrees_witness :
  subtree arab_object (PathStr "ANCESTRY/Total population/Arab")
  = subtree arab_object (PathList arab_path) /\
  families_at arab_object (PathStr "ANCESTRY/Total population/Arab")
  = families_at arab_object (PathList arab_path).
Proof.
  apply (@string_path_agrees arab_object arab_path).
  intros t [<-|[<-|[<-|[]]]]; split; reflexivity.
Defined.

(** X12.  No token of a path given as one string is empty or has a slash:
    a node under a key with a slash is not reached by such a path. *)
Theorem string_path_tokens s t :
  In t (tokens (PathStr s)) ->
  PyStr.truthy t = true /\ free_of slash t = true.
Proof.
  unfold tokens, PyStr.split. intros I. apply filter_In in I as [I T].
  split; [exact T|]. now apply (@split_go_free s EmptyString t).
Qed.

Lemma string_path_tokens_witness :
  PyStr.truthy "Arab" = true /\ free_of slash "Arab" = true.
Proof.
  apply (@string_path_tokens "ANCESTRY//Arab/" "Arab").
  vm_compute. auto.
Defined.

(** X13.  Below the root of a dumped document there are only [Node],
    [Family] and [Member] elements, with [FamilyLabel] and [Label] only
    when labels are included and [Attributes] and [Attr] only when
    attributes are included; the root has the given name. *)
Theorem xml_schema repr_dict include_labels include_attributes
        self root_name doc :
  dump_xml repr_dict include_labels include_attributes self root_name = Ok doc ->
  tag_of doc = root_name /\
  forall e, In e (children_of doc) ->
            incl (all_tags e) (schema include_labels include_attributes).
Proof.
  unfold dump_xml. destruct (_append_node_xml _ _ _ _) as [els|] eqn:E;
    [|discriminate].
  simpl. intros [= <-]. split; [reflexivity|]. simpl.
  apply (@append_node_tags _ _ _ _ _ E).
Qed.

Lemma xml_schema_witness :
  tag_of arab_doc = "ACSProfile" /\
  forall e, In e (children_of arab_doc) ->
            incl (all_tags e) ["Node"; "Family"; "Member"].
Proof.
  apply (@xml_schema no_repr false false arab_object "ACSProfile" arab_doc).
  vm_compute. reflexivity.
Defined.

(** X14.  The elements appended for a node are its [Node] elements
    followed by its [Family] elements: one [Node] for each label key, in
    ascending order of the keys, and one [Family] for each entry of the
    bag. *)
Theorem xml_children_order repr_dict include_labels include_attributes d els :
  _append_node_xml repr_dict include_labels include_attributes (VDict d)
  = Ok els ->
  exists ks nodes fams,
    els = nodes ++ fams /\
    Permutation ks (label_keys d) /\ ascending ks = true /\
    map (fun e => (tag_of e, attr "name" e)) nodes
    = map (fun k => ("Node", Some (VStr k))) ks /\
    List.length fams = bag_size d /\
    forall e, In e fams -> tag_of e = "Family".
Proof. apply append_node_order. Qed.

Lemma xml_children_order_witness :
  exists ks nodes fams,
    mixed_elements = nodes ++ fams /\
    Permutation ks ["b"; "a"] /\ ascending ks = true /\
    map (fun e => (tag_of e, attr "name" e)) nodes
    = map (fun k => ("Node", Some (VStr k))) ks /\
    List.length fams = 1 /\
    forall e, In e fams -> tag_of e = "Family".
Proof.
  apply (@xml_children_order no_repr true true mixed_node mixed_elements).
  vm_compute. reflexivity.
Defined.

(** X15.  [pprint] of the tree of a constructed object raises neither
    [TypeError] nor [AttributeError], for every depth and every limit on
    the children: under the reserved key of the root there is a dict, so
    its [len] is defined, and every node of a recursive call is a dict.
    The limits of the interpreter on the depth of the recursion and on the
    size of a string are not in the model. *)
Theorem pprint_no_type_error c obj depth max_children :
  __init__ c = Ok obj ->
  snd (pprint obj VNone depth max_children) <> Some TypeError /\
  snd (pprint obj VNone depth max_children) <> Some AttributeError.
Proof.
  intros Hi. apply init_dict_tree in Hi. unfold pprint.
  destruct (_tree obj) as [| |d]; inversion Hi as [? _ Hb]; subst.
  rewrite pprint_items_returns; [split; discriminate|].
  intros v I. destruct (Hb v I) as (bag & -> & _). eauto.
Qed.

Lemma pprint_no_type_error_witness :
  snd (pprint arab_object VNone 0 8) <> Some TypeError /\
  snd (pprint arab_object VNone 0 8) <> Some AttributeError.
Proof.
  exact (@pprint_no_type_error arab_catalog arab_object 0%Z 8%Z init_arab).
Defined.

(** X16.  [pprint] does not show the families: for an object of a catalog
    in which no path has the reserved key, it prints what it prints for
    the tree without its bags. *)
Theorem pprint_hides_families c obj depth max_children :
  __init__ c = Ok obj ->
  reserved_free (_families obj) = true ->
  pprint obj VNone depth max_children
  = pprint obj (labels_only (_tree obj)) depth max_children.
Proof.
  intros Hi R. pose proof (@init_dict_tree _ _ Hi) as D.
  destruct (@init_tree _ _ Hi R) as [OK _].
  destruct (@init_inv _ _ Hi) as [Hf _].
  unfold pprint.
  destruct (_tree obj) as [| |d]; inversion OK as [? ? ND Hc Hb]; subst.
  assert (N : Dict.get FAMILIES d = None).
  { destruct (Dict.get FAMILIES d) as [v|] eqn:G; [exfalso|reflexivity].
    apply get_In in G. inversion D as [? _ Hd]; subst.
    destruct (Hd _ G) as (bag & -> & Hne).
    destruct (Hb _ G) as (bag' & E & _ & H). inversion E; subst bag'.
    destruct bag as [|[b x] bag]; [congruence|].
    destruct (H b x (or_introl eq_refl)) as (fam & If & _ & Hl).
    rewrite Hf in If.
    now apply (@label_path_tokens _ _ _ (@families_base_truthy _ _ _ If))
      in Hl. }
  rewrite labels_only_eq. now rewrite pprint_items_labels_only.
Qed.

Lemma pprint_hides_families_witness :
  pprint arab_object VNone 0 8
  = pprint arab_object (labels_only (_tree arab_object)) 0 8.
Proof.
  apply (@pprint_hides_families arab_catalog arab_object 0%Z 8%Z init_arab).
  reflexivity.
Defined.

(** X17.  The limit on the children does not apply to the root: [pprint]
    of the tree of a constructed object has the line of every label key of
    the root, whatever the limit. *)
Theorem pprint_root_complete c obj depth max_children k v :
  __init__ c = Ok obj ->
  In (k, v) (entries (_tree obj)) -> k <> FAMILIES ->
  In (times "  " depth ++ "- " ++ k)%string
     (fst (pprint obj VNone depth max_children)).
Proof.
  intros Hi I N. apply init_dict_tree in Hi. unfold pprint.
  destruct (_tree obj) as [| |d]; inversion Hi as [? _ Hb]; subst.
  simpl in I. apply (@pprint_items_lines _ _ _ _ v); auto.
  apply pprint_items_returns.
  intros x Ix. destruct (Hb x Ix) as (bag & -> & _). eauto.
Qed.

Lemma pprint_root_complete_witness :
  In "- ANCESTRY" (fst (pprint arab_object VNone 0 0)).
Proof.
  apply (@pprint_root_complete arab_catalog arab_object 0%Z 0%Z "ANCESTRY"
           (VDict [("Total population",
                    VDict [("Arab",
                            VDict [(FAMILIES,
                                    VDict [("DP02_0126",
                                            family_value arab_family)])])])])
           init_arab).
  - simpl. auto.
  - discriminate.
Defined.

(** X18.  Every prefix of the path of a family is a node of the tree:
    [subtree] returns a dict with an entry there. *)
Theorem path_prefixes_are_nodes c obj b fam p q :
  __init__ c = Ok obj ->
  reserved_free (_families obj) = true ->
  Dict.get b (_families obj) = Some fam ->
  label_path b fam = Ok (p ++ q) ->
  exists d, subtree obj (PathList p) = Ok (VDict d) /\ d <> [].
Proof.
  intros Hi R G Hl. destruct (@init_tree _ _ Hi R) as [_ Hin].
  destruct (Hin _ _ (get_In _ _ G)) as (path & E & L).
  rewrite Hl in E. inversion E; subst path; clear E.
  unfold bag_lookup in L. unfold subtree. simpl.
  destruct (walk (_tree obj) (p ++ q)) as [[| |d]|] eqn:W; try discriminate.
  destruct (@walk_app _ _ _ _ W) as (d' & Wp & Wq).
  exists d'. split; [exact Wp|]. intros ->.
  destruct q as [|t q]; simpl in Wq.
  - inversion Wq; subst d. discriminate L.
  - discriminate Wq.
Qed.

Lemma path_prefixes_are_nodes_witness :
  exists d, subtree arab_object (PathList ["ANCESTRY"; "Total population"])
            = Ok (VDict d) /\ d <> [].
Proof.
  apply (@path_prefixes_are_nodes arab_catalog arab_object "DP02_0126"
           arab_family ["ANCESTRY"; "Total population"] ["Arab"] init_arab);
    reflexivity.
Defined.

(** X19.  For the tree built from a catalog in which no family's
  path has the reserved key [_families_] among its tokens: every family
  is in the bag that [families_at] returns at the family's own path, and
  every entry of a bag that [families_at] returns at any path is a family
  of the base-to-family mapping, stored under its base, and that path is
  the family's path.  So the bags partition the mapping by base. *)
Theorem families_partition c obj :
__init__ c = Ok obj ->
reserved_free (_families obj) = true ->
(forall b fam,
    Dict.get b (_families obj) = Some fam ->
    exists path bag,
      label_path b fam = Ok path /\
      families_at obj (PathList path) = Ok (VDict bag) /\
      Dict.get b bag = Some (family_value fam)) /\
(forall p bagv b x,
    families_at obj p = Ok bagv ->
    In (b, x) (entries bagv) ->
    exists fam,
      Dict.get b (_families obj) = Some fam /\
      x = family_value fam /\
      label_path b fam = Ok (tokens p)).
Proof.
intros Hi R. destruct (init_tree _ Hi R) as [OK Hin].
destruct (init_inv _ Hi) as [Hf _].
split.
- intros b fam G. apply get_In in G.
  destruct (Hin _ _ G) as (path & Hp & L).
  apply bag_lookup_families_at in L as (bag & F & Gb). eauto.
- intros p bagv b x F I. unfold families_at, subtree in F.
  destruct (walk (_tree obj) (tokens p)) as [n|] eqn:W; [|discriminate].
  simpl in F.
  assert (Hk : forall b fam, In (b, fam) (_families obj) ->
                             b <> FAMILIES /\
                             ~ In FAMILIES (Dict.keys (members fam)))
    by (rewrite Hf; apply families_keys_ok).
  destruct (walk_ok Hk _ OK W) as [->|[N|[N _]]].
  + inversion F; subst. destruct I.
  + simpl in N. inversion N as [? d ND Hc Hb]; subst.
    destruct d as [|kv d']; [inversion F; subst; destruct I|].
    simpl negb in F. cbv iota in F.
    destruct (Dict.get FAMILIES (kv :: d')) as [v|] eqn:G;
      inversion F; subst; [|destruct I].
    destruct (Hb _ (get_In _ _ G)) as (bag & -> & _ & H).
    destruct (H _ _ I) as (fam & If & -> & Hp).
    exists fam. repeat split; auto.
    rewrite Hf in *. now apply families_get.
  + destruct N as [|s|d G _].
    * inversion F; subst. destruct I.
    * destruct s; inversion F; subst. destruct I.
    * destruct d as [|kv d']; [inversion F; subst; destruct I|].
      simpl negb in F. cbv iota in F. rewrite G in F.
      inversion F; subst; destruct I.
Qed.

(** The hypotheses of [families_partition] hold for the catalog of the
  concrete scenario. *)
Lemma families_partition_witness :
__init__ arab_catalog = Ok arab_object /\
reserved_free (_families arab_object) = true /\
exists path bag,
  label_path "DP02_0126" arab_family = Ok path /\
  families_at arab_object (PathList path) = Ok (VDict bag) /\
  Dict.get "DP02_0126" bag = Some (family_value arab_family).
Proof.
split; [exact init_arab|]. split; [reflexivity|].
apply (proj1 (families_partition arab_catalog init_arab eq_refl)).
reflexivity.
Defined.

(** X20.  For an object of a catalog in which no family's path has the
    reserved key: when [dump_xml] builds the element tree that it gives to
    the serialiser, the tree has for every family a [<Family>] element
    below the root with the family's base, its group and its concept when
    the family has them, and the family's measure names each with its
    variable code; and every [<Family>] element below the root is that of
    a family of the mapping. *)
Theorem element_tree_round_trip repr_dict include_labels include_attributes
        c obj root_name doc :
  __init__ c = Ok obj ->
  reserved_free (_families obj) = true ->
  dump_xml repr_dict include_labels include_attributes obj root_name = Ok doc ->
  (forall b fam,
      Dict.get b (_families obj) = Some fam ->
      exists e, In e (flat_map family_elements (children_of doc)) /\
                reconstructs fam e) /\
  (forall e,
      In e (flat_map family_elements (children_of doc)) ->
      exists b fam, Dict.get b (_families obj) = Some fam /\
                    reconstructs fam e).
Proof.
  intros Hi R Hd. destruct (@init_tree _ _ Hi R) as [OK Hin].
  destruct (@init_inv _ _ Hi) as [Hf _].
  assert (Hm : forall b fam, In (b, fam) (_families obj) -> fmeta fam <> None)
    by (rewrite Hf; apply families_metas).
  destruct (XmlFacts.append_node_ok repr_dict include_labels
              include_attributes Hm OK) as (els & E & H1 & H2).
  unfold dump_xml in Hd. rewrite E in Hd. simpl in Hd.
  inversion Hd; subst doc; clear Hd. simpl. split.
  - intros b fam G. apply get_In in G.
    destruct (Hin _ _ G) as (path & Hp & L).
    assert (Np : ~ In FAMILIES path) by (eapply reserved_free_spec; eauto).
    destruct (H2 _ _ _ Np L) as (fam' & m & If & Ev & M & Ie).
    assert (fam' = fam).
    { rewrite Hf in *. apply families_get in If, G. congruence. }
    subst fam'. eexists. split; [exact Ie|].
    now apply XmlFacts.family_element_reconstructs.
  - intros e I. destruct (H1 _ I) as (b & fam & m & If & M & ->).
    exists b, fam. split.
    + rewrite Hf in *. now apply families_get.
    + now apply XmlFacts.family_element_reconstructs.
Qed.

Lemma element_tree_round_trip_witness :
  exists e, In e (flat_map family_elements (children_of arab_doc)) /\
            reconstructs arab_family e.
Proof.
  apply (proj1 (@element_tree_round_trip no_repr false false arab_catalog
                  arab_object "ACSProfile" arab_doc init_arab eq_refl
                  eq_refl) "DP02_0126").
  reflexivity.
Defined.

End Extras.
